(** * The inventory cache store (src/lib/stores/inventoryCache.js)

    A shallow embedding of the cache/sync engine and of the part of the
    remote client (src/lib/odoo.js) it calls, followed by the properties of
    the engine.

    Modelling choices, all taken from the source:
    - JavaScript numbers that hold identities, counts and epoch milliseconds
      are integers ([Z]); the typedefs of the source give [id],
      [lastSyncTime], [lastRecordId] and [recordCount] the type number.
    - A record is its numeric [id] and a finite map of its other properties
      (the typedef is open: "add more field types").
    - An awaited promise is a [Result]: resolved with a value, or rejected
      with an error of which the engine only ever reads [message].
    - The answers of the remote client during one engine operation and the
      reading of the wall clock form the [World] the operation runs in.
    - [localStorage] holds two entries. An entry is absent, or a string that
      [JSON.parse] rejects, or a string that [JSON.parse] maps to a value.
    - An engine function runs from its call to its settlement; calls that
      overlap at an [await] are not interleaved.

    After the store come the remote client over the proxy (src/lib/odoo.js),
    the proxy itself (src/routes/api/odoo/+server.js) with the answers of the
    Odoo server as an oracle, and the utilities of inventoryUtils.js that work
    on records, identities and times. *)

From Stdlib Require Import ZArith Lia.
From stdpp Require Import base strings list gmap sorting pretty.

Local Open Scope string_scope.
Local Open Scope list_scope.
Local Open Scope Z_scope.

(** ** Data model *)

(** Property values of a record. *)
Inductive Value : Type :=
  | VStr (s : string)
  | VNum (n : Z)
  | VBool (b : bool).

(** typedef InventoryRecord: [id] is a number; [x_name] and whatever else the
    remote model carries live in [attrs]. *)
Record InventoryRecord : Type := {
  id : Z;
  attrs : gmap string Value
}.

(** The object literal [{ id, ...fields }]. *)
Definition object_with_id (i : Z) (fields : gmap string Value) : InventoryRecord :=
  {| id := i; attrs := fields |}.

(** The object literal [{ ...r, ...values }]: the properties of [values]
    win over those of [r]. *)
Definition spread_over (r : InventoryRecord) (values : gmap string Value)
  : InventoryRecord :=
  {| id := id r; attrs := values ∪ attrs r |}.

(** typedef CacheMeta *)
Record CacheMeta : Type := {
  lastSyncTime : Z;
  lastRecordId : Z;
  recordCount : Z;
  isStale : bool
}.

(** typedef CacheState *)
Record CacheState : Type := {
  records : list InventoryRecord;
  loading : bool;
  syncing : bool;
  error : string;
  meta : CacheMeta
}.

(** ** Cache configuration *)

Inductive StorageKey : Type := CACHE_KEY | CACHE_META_KEY.

Definition CACHE_DURATION_MS : Z := 5 * 60 * 1000.
Definition SYNC_INTERVAL_MS : Z := 3 * 60 * 1000.

(** ** JavaScript operators used by the engine *)

(** [a || b] on numbers: [0] is falsy. *)
Definition or_number (a b : Z) : Z := if a =? 0 then b else a.

(** [a || b] on strings: the empty string is falsy. *)
Definition or_string (a b : string) : string :=
  match a with
  | EmptyString => b
  | _ => a
  end.

(** [Array.prototype.sort(compare)]: a stable sort; [x] stays in front of the
    elements it does not compare greater than. *)
Fixpoint sort_insert {A : Type} (compare : A → A → Z) (x : A) (l : list A)
  : list A :=
  match l with
  | [] => [x]
  | y :: l' =>
      if compare x y <=? 0 then x :: y :: l' else y :: sort_insert compare x l'
  end.

Fixpoint Array_sort {A : Type} (compare : A → A → Z) (l : list A) : list A :=
  match l with
  | [] => []
  | x :: l' => sort_insert compare x (Array_sort compare l')
  end.

(** The comparator [(a, b) => a.id - b.id]. *)
Definition by_id (a b : InventoryRecord) : Z := id a - id b.

(** [Math.max(x, ...xs)] on a non-empty argument list. *)
Definition Math_max (x : Z) (xs : list Z) : Z := foldl Z.max x xs.

(** [rs.length > 0 ? Math.max(...rs.map(r => r.id)) : 0] *)
Definition max_id_or_zero (rs : list InventoryRecord) : Z :=
  match id <$> rs with
  | [] => 0
  | x :: xs => Math_max x xs
  end.

(** ** Promises and the remote client *)

Inductive Result (A : Type) : Type :=
  | Resolved (a : A)
  | Rejected (message : string).
Arguments Resolved {A} a.
Arguments Rejected {A} message.

(** An Odoo domain: a list of [field, operator, value] triples. *)
Inductive DomainValue : Type :=
  | DNum (n : Z)
  | DList (ns : list Z).

Definition Domain : Type := list (string * string * DomainValue).

(** The methods of [odooClient] (src/lib/odoo.js) the engine calls; each
    field is the settled promise the call yields for its arguments. *)
Module OdooAPI.
Record t : Type := {
  createRecord : string → gmap string Value → Result Z;
  searchRecords : string → Domain → list string → Result (list InventoryRecord);
  searchModel : string → Domain → list string → Result (list (Z * string));
  updateRecord : string → Z → gmap string Value → Result bool;
  deleteRecord : string → Z → Result bool
}.
End OdooAPI.

Record World : Type := {
  odooClient : OdooAPI.t;
  Date_now : Z
}.

(** ** localStorage *)

Inductive Item (A : Type) : Type :=
  | absent                (* getItem returns null *)
  | garbled               (* a string JSON.parse throws on *)
  | json (a : A).         (* a string JSON.parse maps to [a] *)
Arguments absent {A}.
Arguments garbled {A}.
Arguments json {A} a.

Record LocalStorage : Type := {
  cache_item : Item (list InventoryRecord);
  meta_item : Item CacheMeta;
  (* setItem under this key throws (quota exceeded, storage disabled) *)
  setItem_throws : StorageKey → bool
}.

(** Truthiness of what [getItem] returned. A garbled entry is taken to be
    truthy; were it the empty string, the result of [loadFromStorage] would be
    the same default. *)
Definition truthy {A : Type} (x : Item A) : bool :=
  match x with
  | absent => false
  | _ => true
  end.

(** [JSON.parse]: [None] when it throws. *)
Definition JSON_parse {A : Type} (x : Item A) : option A :=
  match x with
  | json a => Some a
  | _ => None
  end.

Record Loaded : Type := {
  loaded_records : list InventoryRecord;
  loaded_meta : CacheMeta
}.

Definition default_meta : CacheMeta :=
  {| lastSyncTime := 0; lastRecordId := 0; recordCount := 0; isStale := true |}.

Definition default_loaded : Loaded :=
  {| loaded_records := []; loaded_meta := default_meta |}.

(** [loadFromStorage()]; the [try] block is the [option] computation, its
    [catch] and the fall-through [return] both give the default. *)
Definition loadFromStorage (now : Z) (ls : LocalStorage) : Loaded :=
  let cachedData := cache_item ls in
  let meta0 := meta_item ls in
  let attempt : option Loaded :=
    if truthy cachedData && truthy meta0 then
      records0 ← JSON_parse cachedData;
      metaData ← JSON_parse meta0;
      let stale := bool_decide (now - lastSyncTime metaData > CACHE_DURATION_MS) in
      Some {| loaded_records := records0;
              loaded_meta := {| lastSyncTime := lastSyncTime metaData;
                                lastRecordId := lastRecordId metaData;
                                recordCount := recordCount metaData;
                                isStale := stale |} |}
    else None in
  default default_loaded attempt.

(** [localStorage.setItem]: [None] when it throws. *)
Definition setItem_cache (v : list InventoryRecord) (ls : LocalStorage)
  : option LocalStorage :=
  if setItem_throws ls CACHE_KEY then None
  else Some {| cache_item := json v; meta_item := meta_item ls;
               setItem_throws := setItem_throws ls |}.

Definition setItem_meta (v : CacheMeta) (ls : LocalStorage)
  : option LocalStorage :=
  if setItem_throws ls CACHE_META_KEY then None
  else Some {| cache_item := cache_item ls; meta_item := json v;
               setItem_throws := setItem_throws ls |}.

(** [saveToStorage(records, meta)]: the two writes run in one [try]; a write
    that throws ends the block, keeps what was written before it, and the
    [catch] only logs. *)
Definition saveToStorage (now : Z) (rs : list InventoryRecord) (m : CacheMeta)
    (ls : LocalStorage) : LocalStorage :=
  match setItem_cache rs ls with
  | None => ls
  | Some ls1 =>
      let written :=
        {| lastSyncTime := or_number (lastSyncTime m) now;
           lastRecordId := or_number (lastRecordId m) 0;
           recordCount := Z.of_nat (length rs);
           isStale := false |} in
      default ls1 (setItem_meta written ls1)
  end.

(** [clearStorage()] *)
Definition clearStorage (ls : LocalStorage) : LocalStorage :=
  {| cache_item := absent; meta_item := absent;
     setItem_throws := setItem_throws ls |}.

(** ** The engine: state and effects *)

(** What [createCacheStore] closes over: the value of the writable store, the
    values handed to subscribers so far (oldest first), the durable mirror
    and the partner name map. *)
Record Engine : Type := {
  store : CacheState;
  notified : list CacheState;
  localStorage : LocalStorage;
  partnerMap : gmap Z string
}.

(** An asynchronous engine function: it reads the world, changes the engine
    and settles. *)
Definition Async (A : Type) : Type := World → Engine → Result A * Engine.

Definition resolve {A : Type} (a : A) : Async A :=
  λ _ e, (Resolved a, e).

Definition throw {A : Type} (message : string) : Async A :=
  λ _ e, (Rejected message, e).

Definition and_then {A B : Type} (m : Async A) (k : A → Async B) : Async B :=
  λ w e,
    match m w e with
    | (Resolved a, e') => k a w e'
    | (Rejected x, e') => (Rejected x, e')
    end.

(** [try { m } catch (err) { handler err }] *)
Definition try_catch {A : Type} (m : Async A) (handler : string → Async A)
  : Async A :=
  λ w e,
    match m w e with
    | (Resolved a, e') => (Resolved a, e')
    | (Rejected x, e') => handler x w e'
    end.

Notation "'let!' x ':=' m 'in' k" := (and_then m (λ x, k))
  (at level 10, x pattern, m at level 100, k at level 200).
Notation "m ';;' k" := (and_then m (λ _, k))
  (at level 100, k at level 200, right associativity).

(** [await odooClient.method(...)] *)
Definition await {A : Type} (call : OdooAPI.t → Result A) : Async A :=
  λ w e, (call (odooClient w), e).

(** [Date.now()] *)
Definition now : Async Z :=
  λ w e, (Resolved (Date_now w), e).

(** The store's [update(fn)]: the new value is set and every subscriber is
    called with it. *)
Definition update (fn : CacheState → CacheState) : Async unit :=
  λ _ e,
    let v := fn (store e) in
    (Resolved (),
     {| store := v; notified := notified e ++ [v];
        localStorage := localStorage e; partnerMap := partnerMap e |}).

(** [subscribe(s => currentState = s)()] *)
Definition read_store : Async CacheState :=
  λ _ e, (Resolved (store e), e).

Definition read_partnerMap : Async (gmap Z string) :=
  λ _ e, (Resolved (partnerMap e), e).

Definition write_partnerMap (pm : gmap Z string) : Async unit :=
  λ _ e,
    (Resolved (),
     {| store := store e; notified := notified e;
        localStorage := localStorage e; partnerMap := pm |}).

Definition on_storage (f : LocalStorage → LocalStorage) : Async unit :=
  λ _ e,
    (Resolved (),
     {| store := store e; notified := notified e;
        localStorage := f (localStorage e); partnerMap := partnerMap e |}).

(** ** createCacheStore *)

(** The engine as [createCacheStore] leaves it, before any call. *)
Definition createCacheStore (t : Z) (ls : LocalStorage) : Engine :=
  let initialCache := loadFromStorage t ls in
  {| store := {| records := loaded_records initialCache;
                 loading := false;
                 syncing := false;
                 error := "";
                 meta := loaded_meta initialCache |};
     notified := [];
     localStorage := ls;
     partnerMap := ∅ |}.

(** [resolvePartnerNames(records)]. Both places that would read a partner
    field are commented out in the source: the loop over the records adds
    nothing to [partnerIds] and the copy of each record is returned as it
    is. *)
Definition resolvePartnerNames (rs : list InventoryRecord)
  : Async (list InventoryRecord) :=
  try_catch
    (let partnerIds : list Z := foldl (λ ids _, ids) [] rs in
     let! pm := read_partnerMap in
     let missingIds := filter (λ i, pm !! i = None) partnerIds in
     (if bool_decide (0 < length missingIds)%nat then
        let! partners :=
          await (λ c, OdooAPI.searchModel c "res.partner"
                        [("id", "in", DList missingIds)]
                        ["id"; "display_name"]) in
        write_partnerMap
          (foldl (λ (m : gmap Z string) (p : Z * string), <[p.1 := p.2]> m) pm partners)
      else resolve ());;
     resolve ((λ record, spread_over record ∅) <$> rs))
    (λ _, resolve rs).

(** ** sync *)

Definition fetch_fields : list string := ["id"; "x_name"].

(** The domain of the incremental fetch. *)
Definition newer_than (watermark : Z) : Domain := [("id", ">", DNum watermark)].

(** [sync(forceFullRefresh = false)] *)
Definition sync (forceFullRefresh : bool) : Async unit :=
  update (λ state,
    {| records := records state; loading := loading state;
       syncing := true; error := ""; meta := meta state |});;
  try_catch
    (let! currentState := read_store in
     let watermark := lastRecordId (meta currentState) in
     (* the incremental attempt; its catch sets forceFullRefresh *)
     let! (forceFullRefresh, fetchedRecords) :=
       (if negb forceFullRefresh && bool_decide (watermark > 0) then
          try_catch
            (let! fetched :=
               await (λ c, OdooAPI.searchRecords c "x_inventory"
                             (newer_than watermark) fetch_fields) in
             resolve (forceFullRefresh, fetched))
            (λ _, resolve (true, []))
        else resolve (forceFullRefresh, [])) in
     let full := forceFullRefresh || bool_decide (watermark = 0) in
     let! fetchedRecords :=
       (if full then
          await (λ c, OdooAPI.searchRecords c "x_inventory" [] fetch_fields)
        else resolve fetchedRecords) in
     let mergedRecords :=
       if full then fetchedRecords
       else
         let existingIds : gset Z := list_to_set (id <$> records currentState) in
         let newRecords := filter (λ r, id r ∉ existingIds) fetchedRecords in
         records currentState ++ newRecords in
     let mergedRecords := Array_sort by_id mergedRecords in
     let! recordsWithNames := resolvePartnerNames mergedRecords in
     let! t := now in
     let newMeta :=
       {| lastSyncTime := t;
          lastRecordId := max_id_or_zero recordsWithNames;
          recordCount := Z.of_nat (length recordsWithNames);
          isStale := false |} in
     on_storage (saveToStorage t recordsWithNames newMeta);;
     update (λ state,
       {| records := recordsWithNames; loading := loading state;
          syncing := false; error := ""; meta := newMeta |}))
    (λ message,
       update (λ state,
         {| records := records state; loading := loading state;
            syncing := false;
            error := or_string message "Failed to sync data";
            meta := meta state |})).

(** [forceRefresh()] *)
Definition forceRefresh : Async unit :=
  on_storage clearStorage;;
  write_partnerMap ∅;;
  sync true.

(** ** Mutations *)

(** [createRecord(fields)] *)
Definition createRecord (fields : gmap string Value) : Async Z :=
  try_catch
    (let! i := await (λ c, OdooAPI.createRecord c "x_inventory" fields) in
     let newRecord := object_with_id i fields in
     update (λ state,
       {| records := records state ++ [newRecord]; loading := loading state;
          syncing := syncing state; error := error state; meta := meta state |});;
     sync false;;
     resolve i)
    (λ message, throw message).

(** [updateRecord(id, values)] *)
Definition updateRecord (i : Z) (values : gmap string Value) : Async bool :=
  try_catch
    (await (λ c, OdooAPI.updateRecord c "x_inventory" i values);;
     update (λ state,
       {| records :=
            (λ r, if bool_decide (id r = i) then spread_over r values else r)
              <$> records state;
          loading := loading state;
          syncing := syncing state; error := error state; meta := meta state |});;
     sync false;;
     resolve true)
    (λ message, throw message).

(** [deleteRecord(id)] *)
Definition deleteRecord (i : Z) : Async bool :=
  try_catch
    (await (λ c, OdooAPI.deleteRecord c "x_inventory" i);;
     update (λ state,
       {| records := filter (λ r, id r ≠ i) (records state);
          loading := loading state;
          syncing := syncing state; error := error state; meta := meta state |});;
     resolve true)
    (λ message, throw message).

(** ** Derived stores *)

(** [$cache.records.slice(-10).reverse()] *)
Definition recentInventories (cache : CacheState) : list InventoryRecord :=
  reverse (drop (length (records cache) - 10)%nat (records cache)).

(** [cacheStatus]: the summary derived from the store. *)
Record CacheStatus : Type := {
  isLoading : bool;
  isSyncing : bool;
  hasError : bool;
  status_error : string;
  status_isStale : bool;
  lastSync : Z;
  status_recordCount : Z
}.

(** [!!s] on a string. *)
Definition string_truthy (s : string) : bool :=
  match s with
  | EmptyString => false
  | _ => true
  end.

Definition cacheStatus (cache : CacheState) : CacheStatus :=
  {| isLoading := loading cache;
     isSyncing := syncing cache;
     hasError := string_truthy (error cache);
     status_error := error cache;
     status_isStale := isStale (meta cache);
     lastSync := lastSyncTime (meta cache);
     status_recordCount := recordCount (meta cache) |}.

(** ** initialize and destroy *)

(** The store together with its timer: [syncInterval] is the variable of
    that name in [createCacheStore], [intervals] the interval timers the host
    has armed, each with its handle and its period. *)
Record Store : Type := {
  engine : Engine;
  syncInterval : option nat;
  intervals : list (nat * Z)
}.

(** [setInterval(callback, period)]: the host arms a timer under a handle
    that is positive and not in use. *)
Definition fresh_handle (timers : list (nat * Z)) : nat :=
  S (max_list (timers.*1)).

(** Truthiness of a timer handle, as in [if (syncInterval)]. *)
Definition handle_truthy (handle : nat) : bool :=
  match handle with
  | O => false
  | S _ => true
  end.

(** [clearInterval(handle)] *)
Definition clearInterval (handle : nat) (timers : list (nat * Z))
  : list (nat * Z) :=
  filter (λ t, t.1 ≠ handle) timers.

Definition read_localStorage : Async LocalStorage :=
  λ _ e, (Resolved (localStorage e), e).

(** What [initialize()] does to the engine. The sync it starts for a stale
    mirror is not awaited by the caller; no other step of [initialize]
    touches the engine after that call, so the engine ends as if it were. *)
Definition initialize_engine : Async unit :=
  let! t := now in
  let! mirror := read_localStorage in
  let currentState := loadFromStorage t mirror in
  if bool_decide (0 < length (loaded_records currentState))%nat then
    let! recordsWithNames := resolvePartnerNames (loaded_records currentState) in
    update (λ state,
      {| records := recordsWithNames; loading := false;
         syncing := syncing state; error := error state;
         meta := loaded_meta currentState |});;
    (if isStale (loaded_meta currentState) then sync false else resolve ())
  else
    update (λ state,
      {| records := records state; loading := true;
         syncing := syncing state; error := error state; meta := meta state |});;
    sync true;;
    update (λ state,
      {| records := records state; loading := false;
         syncing := syncing state; error := error state; meta := meta state |}).

(** The end of [initialize()]: a timer left from an earlier call is cleared
    and a new one is armed that runs [sync()] every [SYNC_INTERVAL_MS]. *)
Definition arm_sync_timer (s : Store) : Store :=
  let timers :=
    match syncInterval s with
    | Some h =>
        if handle_truthy h then clearInterval h (intervals s) else intervals s
    | None => intervals s
    end in
  let h := fresh_handle timers in
  {| engine := engine s;
     syncInterval := Some h;
     intervals := timers ++ [(h, SYNC_INTERVAL_MS)] |}.

(** [initialize()] *)
Definition initialize (w : World) (s : Store) : Result unit * Store :=
  match initialize_engine w (engine s) with
  | (Resolved _, e') =>
      (Resolved (),
       arm_sync_timer {| engine := e'; syncInterval := syncInterval s;
                         intervals := intervals s |})
  | (Rejected message, e') =>
      (Rejected message,
       {| engine := e'; syncInterval := syncInterval s;
          intervals := intervals s |})
  end.

(** [destroy()] *)
Definition destroy (s : Store) : Store :=
  match syncInterval s with
  | Some h =>
      if handle_truthy h then
        {| engine := engine s; syncInterval := None;
           intervals := clearInterval h (intervals s) |}
      else s
  | None => s
  end.

(** ** The remote client over the proxy (src/lib/odoo.js) *)

(** The JSON values that travel as [id], [results] and [result]. *)
Inductive Payload : Type :=
  | undefined
  | boolean (b : bool)
  | number (n : Z)
  | rows (l : list InventoryRecord).

(** Truthiness of a payload: an array is truthy, also when it is empty. *)
Definition payload_truthy (p : Payload) : bool :=
  match p with
  | undefined => false
  | boolean b => b
  | number n => negb (n =? 0)
  | rows _ => true
  end.

(** The property [fields] of a request holds the values of a new record or
    the names of the fields to read. *)
Inductive FieldsArg : Type :=
  | field_values (values : gmap string Value)
  | field_names (names : list string).

(** The object sent as [data]: [model], and whichever of the other
    properties the action needs. *)
Record ApiData : Type := {
  d_model : string;
  d_fields : option FieldsArg;
  d_domain : option Domain;
  d_id : option Z;
  d_values : option (gmap string Value)
}.

Record ApiRequest : Type := {
  action : string;
  data : ApiData
}.

(** The JSON object in the body of a response of the proxy. *)
Record ApiBody : Type := {
  success : bool;
  body_id : Payload;
  body_results : Payload;
  body_result : Payload;
  body_error : option string
}.

(** [fetch(apiUrl, ...)] followed by [response.json()]: the body that comes
    back for a request, or the error thrown on the way. *)
Definition Transport : Type := ApiRequest → Result ApiBody.

Module odoo.

(** [callApi(action, data)] *)
Definition callApi (fetch : Transport) (action : string) (data : ApiData)
  : Result ApiBody :=
  match fetch {| action := action; data := data |} with
  | Rejected message => Rejected message
  | Resolved result =>
      if negb (success result) then
        Rejected (or_string (default "" (body_error result)) "API Error")
      else Resolved result
  end.

Definition then_field (field : ApiBody → Payload) (r : Result ApiBody)
  : Result Payload :=
  match r with
  | Resolved result => Resolved (field result)
  | Rejected message => Rejected message
  end.

(** [createRecord(model, fields)] *)
Definition createRecord (fetch : Transport) (model : string)
    (fields : gmap string Value) : Result Payload :=
  then_field body_id
    (callApi fetch "create"
       {| d_model := model; d_fields := Some (field_values fields);
          d_domain := None; d_id := None; d_values := None |}).

(** [searchRecords(model, domain = [], fields = [])] *)
Definition searchRecords (fetch : Transport) (model : string) (domain : Domain)
    (fields : list string) : Result Payload :=
  then_field body_results
    (callApi fetch "search"
       {| d_model := model; d_fields := Some (field_names fields);
          d_domain := Some domain; d_id := None; d_values := None |}).

(** [searchModel(model, domain = [], fields = [])] *)
Definition searchModel (fetch : Transport) (model : string) (domain : Domain)
    (fields : list string) : Result Payload :=
  then_field body_results
    (callApi fetch "search_model"
       {| d_model := model; d_fields := Some (field_names fields);
          d_domain := Some domain; d_id := None; d_values := None |}).

(** [updateRecord(model, id, values)] *)
Definition updateRecord (fetch : Transport) (model : string) (i : Z)
    (values : gmap string Value) : Result Payload :=
  then_field body_result
    (callApi fetch "update"
       {| d_model := model; d_fields := None; d_domain := None;
          d_id := Some i; d_values := Some values |}).

(** [deleteRecord(model, id)] *)
Definition deleteRecord (fetch : Transport) (model : string) (i : Z)
  : Result Payload :=
  then_field body_result
    (callApi fetch "delete"
       {| d_model := model; d_fields := None; d_domain := None;
          d_id := Some i; d_values := None |}).

End odoo.

(** ** The proxy (src/routes/api/odoo/+server.js) *)

(** The private environment of the server. *)
Record Env : Type := {
  ODOO_URL : string;
  ODOO_DB : string;
  ODOO_USERNAME : string;
  ODOO_API_KEY : string
}.

(** The [error] member of a JSON-RPC answer: [error.data?.message] and
    [error.message], each possibly missing. *)
Record RpcError : Type := {
  data_message : option string;
  rpc_message : option string
}.

Record RpcBody : Type := {
  rpc_error : option RpcError;
  rpc_result : Payload
}.

(** The positional arguments [execute] is called with, by method. *)
Inductive KwArgs : Type :=
  | create_args (fields : option FieldsArg)
  | search_read_args (domain : Domain) (fields : FieldsArg)
  | write_args (i : option Z) (values : option (gmap string Value))
  | unlink_args (i : option Z).

(** What the Odoo server answers to the two JSON-RPC calls of the proxy:
    the parsed body, or the error thrown by [fetch] or [response.json()]. *)
Record OdooServer : Type := {
  common_login : string → string → string → Result RpcBody;
  object_execute_kw :
    string → Payload → string → string → string → KwArgs → Result RpcBody
}.

Module server.

(** [callOdoo(service, method, args)], given what the Odoo server answers
    to that call. *)
Definition callOdoo (answer : Result RpcBody) : Result Payload :=
  match answer with
  | Rejected message => Rejected message
  | Resolved data =>
      match rpc_error data with
      | Some err =>
          Rejected
            (or_string
               (or_string (default "" (data_message err))
                          (default "" (rpc_message err)))
               "Odoo API Error")
      | None => Resolved (rpc_result data)
      end
  end.

(** [authenticate()]; the second component is [cachedUid] afterwards. *)
Definition authenticate (env : Env) (o : OdooServer) (cachedUid : Payload)
  : Result Payload * Payload :=
  if payload_truthy cachedUid then (Resolved cachedUid, cachedUid)
  else
    match callOdoo (common_login o (ODOO_DB env) (ODOO_USERNAME env)
                      (ODOO_API_KEY env)) with
    | Rejected message => (Rejected message, cachedUid)
    | Resolved uid =>
        if negb (payload_truthy uid) then
          (Rejected "Authentication failed", cachedUid)
        else (Resolved uid, uid)
    end.

(** [execute(model, method, args, kwargs)] *)
Definition execute (env : Env) (o : OdooServer) (model method : string)
    (args : KwArgs) (cachedUid : Payload) : Result Payload * Payload :=
  match authenticate env o cachedUid with
  | (Rejected message, c) => (Rejected message, c)
  | (Resolved uid, c) =>
      (callOdoo (object_execute_kw o (ODOO_DB env) uid (ODOO_API_KEY env)
                   model method args), c)
  end.

Record HttpResponse : Type := {
  status : Z;
  body : ApiBody
}.

Definition no_payload (ok : bool) (err : option string) : ApiBody :=
  {| success := ok; body_id := undefined; body_results := undefined;
     body_result := undefined; body_error := err |}.

(** [json({ success: false, error }, { status })] *)
Definition json_failure (code : Z) (message : string) : HttpResponse :=
  {| status := code; body := no_payload false (Some message) |}.

(** [json({ success: true, ... })]: the status is 200. *)
Definition json_success (b : ApiBody) : HttpResponse :=
  {| status := 200; body := b |}.

(** The end of a [case]: the answer of [execute] goes into the body under
    the name of the case, an error goes to the [catch] of [POST]. *)
Definition respond (into : Payload → ApiBody) (r : Result Payload * Payload)
  : HttpResponse * Payload :=
  match r with
  | (Resolved p, c) => (json_success (into p), c)
  | (Rejected message, c) => (json_failure 500 message, c)
  end.

(** [POST({ request })]; [request] is what [request.json()] yields. *)
Definition POST (env : Env) (o : OdooServer) (request : Result ApiRequest)
    (cachedUid : Payload) : HttpResponse * Payload :=
  match request with
  | Rejected message => (json_failure 500 message, cachedUid)
  | Resolved req =>
      let d := data req in
      if String.eqb (action req) "create" then
        respond (λ p, {| success := true; body_id := p;
                         body_results := undefined; body_result := undefined;
                         body_error := None |})
          (execute env o (d_model d) "create" (create_args (d_fields d))
             cachedUid)
      else if String.eqb (action req) "search"
              || String.eqb (action req) "search_model" then
        respond (λ p, {| success := true; body_id := undefined;
                         body_results := p; body_result := undefined;
                         body_error := None |})
          (execute env o (d_model d) "search_read"
             (search_read_args (default [] (d_domain d))
                               (default (field_names []) (d_fields d)))
             cachedUid)
      else if String.eqb (action req) "update" then
        respond (λ p, {| success := true; body_id := undefined;
                         body_results := undefined; body_result := p;
                         body_error := None |})
          (execute env o (d_model d) "write"
             (write_args (d_id d) (d_values d)) cachedUid)
      else if String.eqb (action req) "delete" then
        respond (λ p, {| success := true; body_id := undefined;
                         body_results := undefined; body_result := p;
                         body_error := None |})
          (execute env o (d_model d) "unlink" (unlink_args (d_id d)) cachedUid)
      else (json_failure 400 "Invalid action", cachedUid)
  end.

End server.

(** The transport of a client whose requests reach the proxy and whose
    responses come back: the body of what [POST] answers. *)
Definition through_proxy (env : Env) (o : OdooServer) (cachedUid : Payload)
  : Transport :=
  λ req, Resolved (server.body (server.POST env o (Resolved req) cachedUid).1).

(** ** inventoryUtils.js *)

(** An identity as the utilities see it: the number the remote assigned or a
    string made up locally. *)
Inductive AnyId : Type :=
  | id_number (n : Z)
  | id_string (s : string).

(** [generateTempId()]; [random] stands for
    [Math.random().toString(36).substr(2, 9)]. *)
Definition generateTempId (t : Z) (random : string) : string :=
  "temp_" +:+ pretty t +:+ "_" +:+ random.

(** [isTempId(id)] *)
Definition isTempId (i : AnyId) : bool :=
  match i with
  | id_string s => String.prefix "temp_" s
  | id_number _ => false
  end.

(** The template [`${n} ${unit}${n > 1 ? 's' : ''} ago`]. *)
Definition ago (n : Z) (unit : string) : string :=
  pretty n +:+ " " +:+ unit +:+ (if bool_decide (n > 1) then "s" else "")
  +:+ " ago".

(** [formatRelativeTime(timestamp)]; [Math.floor] of a quotient of integers
    is [Z.div]. *)
Definition formatRelativeTime (t timestamp : Z) : string :=
  let diff := t - timestamp in
  let seconds := diff / 1000 in
  let minutes := seconds / 60 in
  let hours := minutes / 60 in
  let days := hours / 24 in
  if bool_decide (days > 0) then ago days "day"
  else if bool_decide (hours > 0) then ago hours "hour"
  else if bool_decide (minutes > 0) then ago minutes "minute"
  else "Just now".

(** [s.includes(term)] *)
Fixpoint includes (s term : string) : bool :=
  String.prefix term s
  || match s with
     | EmptyString => false
     | String _ s' => includes s' term
     end.

(** [record[field]]: [None] where the record has no such property. *)
Definition property (r : InventoryRecord) (field : string) : option Value :=
  if String.eqb field "id" then Some (VNum (id r)) else attrs r !! field.

(** [String(value)] *)
Definition String_of (v : Value) : string :=
  match v with
  | VStr s => s
  | VNum n => pretty n
  | VBool true => "true"
  | VBool false => "false"
  end.

(** [filterRecords(records, searchTerm, searchFields = ['x_name'])], for
    whatever [String.prototype.toLowerCase] and [String.prototype.trim]
    compute. *)
Definition filterRecords (toLowerCase trim : string → string)
    (rs : list InventoryRecord) (searchTerm : string)
    (searchFields : list string) : list InventoryRecord :=
  if negb (string_truthy searchTerm) || String.eqb (trim searchTerm) "" then rs
  else
    let term := toLowerCase searchTerm in
    filter (λ record,
              existsb (λ field,
                         match property record field with
                         | None => false
                         | Some value => includes (toLowerCase (String_of value)) term
                         end) searchFields = true) rs.

(** * Vocabulary of the statements *)

(** ** Order by identity *)

(** Ascending, and strictly ascending, by identity. *)
Definition id_le (a b : InventoryRecord) : Prop := id a ≤ id b.
Definition id_lt (a b : InventoryRecord) : Prop := id a < id b.

(** ** The runs of sync *)

(** The engine after [update] has set the store to [v]. *)
Definition publish (v : CacheState) (e : Engine) : Engine :=
  {| store := v; notified := notified e ++ [v];
     localStorage := localStorage e; partnerMap := partnerMap e |}.

(** The state sync publishes when it starts. *)
Definition syncing_state (s : CacheState) : CacheState :=
  {| records := records s; loading := loading s;
     syncing := true; error := ""; meta := meta s |}.

(** The metadata sync computes for the record set [rs] at time [t]. *)
Definition meta_of (t : Z) (rs : list InventoryRecord) : CacheMeta :=
  {| lastSyncTime := t;
     lastRecordId := max_id_or_zero rs;
     recordCount := Z.of_nat (length rs);
     isStale := false |}.

(** The engine after a run of sync that ends with the record set [rs]. *)
Definition committed (t : Z) (rs : list InventoryRecord) (e : Engine) : Engine :=
  let v := {| records := rs; loading := loading (store e);
              syncing := false; error := ""; meta := meta_of t rs |} in
  {| store := v;
     notified := (notified e ++ [syncing_state (store e)]) ++ [v];
     localStorage := saveToStorage t rs (meta_of t rs) (localStorage e);
     partnerMap := partnerMap e |}.

(** The engine after a run of sync that ends in its outer [catch]. *)
Definition failed (message : string) (e : Engine) : Engine :=
  publish {| records := records (store e); loading := loading (store e);
             syncing := false;
             error := or_string message "Failed to sync data";
             meta := meta (store e) |}
          (publish (syncing_state (store e)) e).

(** The two fetches a run may issue. *)
Definition incremental_fetch (w : World) (e : Engine)
  : Result (list InventoryRecord) :=
  OdooAPI.searchRecords (odooClient w) "x_inventory"
    (newer_than (lastRecordId (meta (store e)))) fetch_fields.

Definition full_fetch (w : World) : Result (list InventoryRecord) :=
  OdooAPI.searchRecords (odooClient w) "x_inventory" [] fetch_fields.

(** The records of the incremental merge, before the sort. *)
Definition merge_new (existing fetched : list InventoryRecord)
  : list InventoryRecord :=
  existing ++ filter (λ r, id r ∉ (id <$> existing)) fetched.

(** The end of a run in full mode: the answer of the full fetch replaces the
    cached set, or its rejection lands in the outer [catch]. *)
Definition replaced (w : World) (e : Engine) : Engine :=
  match full_fetch w with
  | Resolved l => committed (Date_now w) (Array_sort by_id l) e
  | Rejected message => failed message e
  end.

(** The end of a run in incremental mode that fetched [fetched]. *)
Definition merged (fetched : list InventoryRecord) (w : World) (e : Engine)
  : Engine :=
  committed (Date_now w)
    (Array_sort by_id (merge_new (records (store e)) fetched)) e.

(** The run, branch by branch. *)
Definition sync_outcome (forceFullRefresh : bool) (w : World) (e : Engine)
  : Engine :=
  let watermark := lastRecordId (meta (store e)) in
  if forceFullRefresh || bool_decide (watermark = 0) then replaced w e
  else if bool_decide (watermark > 0) then
    match incremental_fetch w e with
    | Resolved l => merged l w e
    | Rejected _ => replaced w e
    end
  else merged [] w e.

(** The run gets as far as the full fetch: it was forced, or the watermark
    is zero, or the incremental fetch was rejected. *)
Definition full_fetch_issued (forceFullRefresh : bool) (w : World) (e : Engine)
  : Prop :=
  forceFullRefresh = true
  ∨ lastRecordId (meta (store e)) = 0
  ∨ (lastRecordId (meta (store e)) > 0
     ∧ ∃ message, incremental_fetch w e = Rejected message).

(** The same engine over another durable storage. *)
Definition with_storage (ls : LocalStorage) (e : Engine) : Engine :=
  {| store := store e; notified := notified e;
     localStorage := ls; partnerMap := partnerMap e |}.

(** The remote has no record beyond the watermark of [e]: the incremental
    fetch comes back empty and, at watermark zero, where every record is
    newer, so does the full fetch. *)
Definition nothing_newer (w : World) (e : Engine) : Prop :=
  (lastRecordId (meta (store e)) > 0 → incremental_fetch w e = Resolved [])
  ∧ (lastRecordId (meta (store e)) = 0 → full_fetch w = Resolved []).

(** Every answer of the remote to a fetch lists an identity once. *)
Definition remote_ids_distinct (w : World) : Prop :=
  ∀ d l, OdooAPI.searchRecords (odooClient w) "x_inventory" d fetch_fields
         = Resolved l → NoDup (id <$> l).

(** ** The states the mutations publish *)



(** The cached set after the removal of [deleteRecord]. *)
Definition removed (i : Z) (s : CacheState) : CacheState :=
  {| records := filter (λ r, id r ≠ i) (records s);
     loading := loading s; syncing := syncing s; error := error s;
     meta := meta s |}.

(** * Concrete caches, remotes and storages *)

Definition item (i : Z) (name : string) : InventoryRecord :=
  {| id := i; attrs := {[ "x_name" := VStr name ]} |}.

(** A remote client that answers the full fetch with [full], any filtered
    fetch with [newer], and the three mutations as given. *)
Definition client (full newer : Result (list InventoryRecord))
    (created : Result Z) (updated deleted : Result bool) : OdooAPI.t :=
  {| OdooAPI.createRecord := λ _ _, created;
     OdooAPI.searchRecords := λ _ d _, match d with [] => full | _ => newer end;
     OdooAPI.searchModel := λ _ _ _, Resolved [];
     OdooAPI.updateRecord := λ _ _ _, updated;
     OdooAPI.deleteRecord := λ _ _, deleted |}.

Definition empty_storage : LocalStorage :=
  {| cache_item := absent; meta_item := absent; setItem_throws := λ _, false |}.

Definition full_storage : LocalStorage :=
  {| cache_item := absent; meta_item := absent; setItem_throws := λ _, true |}.

(** A cache holding the records 1 and 2, with watermark 2. *)
Definition cache_1_2 (ls : LocalStorage) : Engine :=
  {| store := {| records := [item 1 "Milk"; item 2 "Eggs"];
                 loading := false; syncing := false; error := "";
                 meta := {| lastSyncTime := 1000; lastRecordId := 2;
                            recordCount := 2; isStale := false |} |};
     notified := [];
     localStorage := ls;
     partnerMap := ∅ |}.

(** The cache holds record 2 twice: next to the fetched record, the copy
    [createRecord] appended for the same identity. *)
Definition cache_1_2_2 : Engine :=
  {| store := {| records := [item 1 "Milk"; item 2 "Eggs"; item 2 "Eggs"];
                 loading := false; syncing := false; error := "";
                 meta := {| lastSyncTime := 1000; lastRecordId := 2;
                            recordCount := 3; isStale := false |} |};
     notified := [];
     localStorage := empty_storage;
     partnerMap := ∅ |}.

Definition world_fallback : World :=
  {| odooClient := client (Resolved [item 3 "Ham"; item 1 "Milk"])
                          (Rejected "timeout")
                          (Rejected "") (Rejected "") (Rejected "");
     Date_now := 2000 |}.

Definition world_3_7_9 : World :=
  {| odooClient := client (Rejected "unused")
                          (Resolved [item 9 "Jam"; item 3 "Ham"; item 7 "Tea"])
                          (Rejected "") (Rejected "") (Rejected "");
     Date_now := 2000 |}.

(** A run over a storage that refuses every write: the full fetch answers
    with record 3 alone. *)
Definition world_only_3 : World :=
  {| odooClient := client (Resolved [item 3 "Ham"]) (Resolved [])
                          (Rejected "") (Rejected "") (Rejected "");
     Date_now := 2000 |}.

Definition world_down : World :=
  {| odooClient := client (Rejected "Network unreachable") (Rejected "timeout")
                          (Rejected "") (Rejected "") (Rejected "");
     Date_now := 2000 |}.

Definition world_quiet (t : Z) : World :=
  {| odooClient := client (Resolved [item 1 "Milk"; item 2 "Eggs"]) (Resolved [])
                          (Rejected "") (Rejected "") (Rejected "");
     Date_now := t |}.





Definition world_delete_refused : World :=
  {| odooClient := client (Resolved []) (Resolved [])
                          (Rejected "") (Rejected "") (Rejected "Record is locked");
     Date_now := 2000 |}.

Definition world_delete_accepted : World :=
  {| odooClient := client (Resolved []) (Resolved [])
                          (Rejected "") (Rejected "") (Resolved true);
     Date_now := 2000 |}.

(** A mirror synced at time [t0], holding record 1. *)
Definition mirror_synced_at (t0 : Z) : LocalStorage :=
  {| cache_item := json [item 1 "Milk"];
     meta_item := json {| lastSyncTime := t0; lastRecordId := 1;
                          recordCount := 1; isStale := false |};
     setItem_throws := λ _, false |}.

Definition mirror_without_meta : LocalStorage :=
  {| cache_item := json [item 1 "Milk"]; meta_item := absent;
     setItem_throws := λ _, false |}.

Definition mirror_with_garbled_records : LocalStorage :=
  {| cache_item := garbled;
     meta_item := json {| lastSyncTime := 1000; lastRecordId := 1;
                          recordCount := 1; isStale := false |};
     setItem_throws := λ _, false |}.

(** * Vocabulary of the further properties *)

(** Both entries of the mirror can be written. *)
Definition writable (ls : LocalStorage) : Prop :=
  setItem_throws ls CACHE_KEY = false
  ∧ setItem_throws ls CACHE_META_KEY = false.

(** The metadata [m] as [loadFromStorage] returns it at time [t]. *)
Definition reloaded_meta (t : Z) (m : CacheMeta) : CacheMeta :=
  {| lastSyncTime := lastSyncTime m;
     lastRecordId := lastRecordId m;
     recordCount := recordCount m;
     isStale := bool_decide (t - lastSyncTime m > CACHE_DURATION_MS) |}.

(** A storage that takes the records but refuses the metadata. *)
Definition storage_refusing_meta (ls : LocalStorage) : LocalStorage :=
  {| cache_item := cache_item ls; meta_item := meta_item ls;
     setItem_throws := λ k, match k with
                            | CACHE_KEY => false
                            | CACHE_META_KEY => true
                            end |}.

Definition world_full_1_2_3 (t : Z) : World :=
  {| odooClient := client (Resolved [item 3 "Ham"; item 1 "Milk"; item 2 "Eggs"])
                          (Resolved [item 3 "Ham"])
                          (Rejected "") (Rejected "") (Rejected "");
     Date_now := t |}.

(** The remote answers the incremental fetch with a changed record 2 and a
    new record 3. *)
Definition world_newer_2_3 : World :=
  {| odooClient := client (Rejected "unused")
                          (Resolved [item 2 "Eggs (12)"; item 3 "Ham"])
                          (Resolved 3) (Resolved true) (Resolved true);
     Date_now := 2000 |}.

(** A cache of twelve records, identities 1 to 12. *)
Definition cache_of_twelve : CacheState :=
  {| records := (λ i, item i "Jar") <$> [1; 2; 3; 4; 5; 6; 7; 8; 9; 10; 11; 12];
     loading := false; syncing := false; error := "";
     meta := {| lastSyncTime := 1000; lastRecordId := 12;
                recordCount := 12; isStale := false |} |}.

(** A store that was not initialized yet, over the given mirror, next to a
    timer of the host that is not its own. *)
Definition store_over (t : Z) (ls : LocalStorage) : Store :=
  {| engine := createCacheStore t ls;
     syncInterval := None;
     intervals := [(4%nat, 1000)] |}.

(** The state [initialize] publishes from a mirror that holds records. *)
Definition mirror_state (loaded : Loaded) (s : CacheState) : CacheState :=
  {| records := loaded_records loaded; loading := false;
     syncing := syncing s; error := error s; meta := loaded_meta loaded |}.

(** The full fetch answers with record 1, "Milk". *)
Definition world_milk : World :=
  {| odooClient := client (Resolved [item 1 "Milk"]) (Resolved [])
                          (Rejected "") (Rejected "") (Rejected "");
     Date_now := 2000 |}.

(** The same answers of the remote at another reading of the clock. *)
Definition at_time (t : Z) (w : World) : World :=
  {| odooClient := odooClient w; Date_now := t |}.

(** The rejection a caller of the client sees for an error thrown behind the
    proxy: the message, or ["API Error"] when it is empty. *)
Definition relayed (r : Result Payload) : Result Payload :=
  match r with
  | Resolved p => Resolved p
  | Rejected message => Rejected (or_string message "API Error")
  end.

(** What a client call gets through the proxy: the answer of [execute_kw]
    under the uid that [authenticate] yields. *)
Definition executed (env : Env) (o : OdooServer) (cachedUid : Payload)
    (model method : string) (args : KwArgs) : Result Payload :=
  match (server.authenticate env o cachedUid).1 with
  | Rejected message => Rejected (or_string message "API Error")
  | Resolved uid =>
      relayed (server.callOdoo
                 (object_execute_kw o (ODOO_DB env) uid (ODOO_API_KEY env)
                    model method args))
  end.

Definition known_actions : list string :=
  ["create"; "search"; "search_model"; "update"; "delete"].

Definition test_env : Env :=
  {| ODOO_URL := "https://odoo.example"; ODOO_DB := "fridge";
     ODOO_USERNAME := "cook"; ODOO_API_KEY := "secret" |}.

(** An Odoo server that logs the user in as uid 7 and refuses every call on
    a model with an access error. *)
Definition odoo_refusing : OdooServer :=
  {| common_login := λ _ _ _,
       Resolved {| rpc_error := None; rpc_result := number 7 |};
     object_execute_kw := λ _ _ _ _ _ _,
       Resolved {| rpc_error :=
                     Some {| data_message := Some "Access denied";
                             rpc_message := Some "Odoo Server Error" |};
                   rpc_result := undefined |} |}.

(** An Odoo server that rejects the login. *)
Definition odoo_login_refused : OdooServer :=
  {| common_login := λ _ _ _,
       Resolved {| rpc_error := None; rpc_result := boolean false |};
     object_execute_kw := λ _ _ _ _ _ _,
       Resolved {| rpc_error := None; rpc_result := boolean true |} |}.

(** A transport that answers every request with a failure without text. *)
Definition silent_failure : Transport :=
  λ _, Resolved {| success := false; body_id := undefined;
                   body_results := undefined; body_result := undefined;
                   body_error := None |}.

Definition no_data (model : string) : ApiData :=
  {| d_model := model; d_fields := None; d_domain := None; d_id := None;
     d_values := None |}.

(** ASCII letters to lower case, other characters unchanged: what
    [toLowerCase] does on ASCII strings. *)
Definition ascii_lower (a : Ascii.ascii) : Ascii.ascii :=
  let n := Ascii.nat_of_ascii a in
  if bool_decide (65 ≤ n ≤ 90)%nat then Ascii.ascii_of_nat (n + 32) else a.

Fixpoint ascii_toLowerCase (s : string) : string :=
  match s with
  | EmptyString => EmptyString
  | String a s' => String (ascii_lower a) (ascii_toLowerCase s')
  end.

(** Leading spaces removed; enough of [trim] to tell a blank term. *)
Fixpoint drop_spaces (s : string) : string :=
  match s with
  | EmptyString => s
  | String a s' =>
      if Ascii.eqb a (Ascii.ascii_of_nat 32) then drop_spaces s' else s
  end.

(** * Properties *)

(** ** The sort *)

Lemma sort_insert_perm {A : Type} (compare : A → A → Z) x l :
  sort_insert compare x l ≡ₚ x :: l.
Proof.
  induction l as [|y l IH]; simpl; [done|].
  destruct (compare x y <=? 0); [done|].
  rewrite IH. apply Permutation_swap.
Qed.

Lemma Array_sort_perm {A : Type} (compare : A → A → Z) l :
  Array_sort compare l ≡ₚ l.
Proof.
  induction l as [|x l IH]; simpl; [done|].
  by rewrite sort_insert_perm, IH.
Qed.

Lemma sort_insert_by_id_sorted x l :
  Sorted id_le l → Sorted id_le (sort_insert by_id x l).
Proof.
  induction 1 as [|y l Hl IH Hhd]; simpl.
  - repeat constructor.
  - unfold by_id at 1. destruct (Z.leb_spec (id x - id y) 0) as [Hle|Hgt].
    + constructor; [by constructor|]. constructor. unfold id_le. lia.
    + constructor; [done|].
      destruct Hhd as [|z l' Hyz]; simpl.
      * constructor. unfold id_le. lia.
      * unfold by_id. destruct (Z.leb_spec (id x - id z) 0);
          constructor; unfold id_le in *; lia.
Qed.

Lemma Array_sort_by_id_sorted l : Sorted id_le (Array_sort by_id l).
Proof.
  induction l as [|x l IH]; simpl; [constructor|].
  by apply sort_insert_by_id_sorted.
Qed.

(** Sorting a list that is already ascending changes nothing. *)
Lemma Array_sort_by_id_fixed l : Sorted id_le l → Array_sort by_id l = l.
Proof.
  induction 1 as [|x l Hl IH Hhd]; simpl; [done|].
  rewrite IH. destruct Hhd as [|y l' Hxy]; simpl; [done|].
  unfold by_id, id_le in *.
  destruct (Z.leb_spec (id x - id y) 0); [done|lia].
Qed.

Lemma Array_sort_by_id_idem l :
  Array_sort by_id (Array_sort by_id l) = Array_sort by_id l.
Proof. apply Array_sort_by_id_fixed, Array_sort_by_id_sorted. Qed.

(** Stability: the records of one identity keep their relative order. *)
Lemma sort_insert_by_id_stable k x l :
  Sorted id_le l →
  filter (λ r, id r = k) (sort_insert by_id x l)
  = filter (λ r, id r = k) (x :: l).
Proof.
  induction 1 as [|y l Hl IH Hhd]; simpl; [done|].
  unfold by_id at 1. destruct (Z.leb_spec (id x - id y) 0) as [Hle|Hgt]; [done|].
  rewrite !filter_cons in *.
  destruct (decide (id y = k)) as [Hy|Hy], (decide (id x = k)) as [Hx|Hx];
    try (rewrite IH; done); try lia.
Qed.

Lemma Array_sort_by_id_stable k l :
  filter (λ r, id r = k) (Array_sort by_id l) = filter (λ r, id r = k) l.
Proof.
  induction l as [|x l IH]; simpl; [done|].
  rewrite sort_insert_by_id_stable by apply Array_sort_by_id_sorted.
  by rewrite !filter_cons, IH.
Qed.

(** With pairwise distinct identities, ascending is strictly ascending. *)
Lemma sorted_distinct_strict l :
  Sorted id_le l → NoDup (id <$> l) → Sorted id_lt l.
Proof.
  induction 1 as [|x l Hl IH Hhd]; intros Hnd; [constructor|].
  rewrite fmap_cons in Hnd. apply NoDup_cons in Hnd as [Hx Hnd].
  constructor; [by apply IH|].
  destruct Hhd as [|y l' Hxy]; constructor.
  unfold id_le, id_lt in *.
  assert (id x ≠ id y); [|lia].
  intros Heq. apply Hx. rewrite fmap_cons, Heq. left.
Qed.

(** ** Math.max *)

Lemma Math_max_upper x xs : x ≤ Math_max x xs ∧ Forall (λ y, y ≤ Math_max x xs) xs.
Proof.
  unfold Math_max. revert x. induction xs as [|y xs IH]; intros x; simpl.
  - split; [lia|constructor].
  - destruct (IH (Z.max x y)) as [H1 H2]. split; [lia|].
    constructor; [lia|done].
Qed.

Lemma Math_max_attained x xs : Math_max x xs ∈ x :: xs.
Proof.
  unfold Math_max. revert x. induction xs as [|y xs IH]; intros x; simpl.
  - left.
  - specialize (IH (Z.max x y)). apply elem_of_cons in IH as [IH|IH].
    + rewrite IH. destruct (Z.max_spec x y) as [[_ ->]|[_ ->]]; [right|]; left.
    + by do 2 right.
Qed.

Lemma max_id_or_zero_nil : max_id_or_zero [] = 0.
Proof. reflexivity. Qed.

Lemma max_id_or_zero_upper rs r : r ∈ rs → id r ≤ max_id_or_zero rs.
Proof.
  intros Hr. assert (id r ∈ id <$> rs) as Hin by by apply list_elem_of_fmap_2.
  unfold max_id_or_zero. destruct (id <$> rs) as [|x xs]; [by inversion Hin|].
  destruct (Math_max_upper x xs) as [H1 H2].
  apply elem_of_cons in Hin as [->|Hin]; [done|].
  by eapply Forall_forall in H2.
Qed.

Lemma max_id_or_zero_attained rs :
  rs ≠ [] → ∃ r, r ∈ rs ∧ id r = max_id_or_zero rs.
Proof.
  intros Hne. unfold max_id_or_zero.
  destruct (id <$> rs) as [|x xs] eqn:E.
  - destruct rs; [done|discriminate].
  - pose proof (Math_max_attained x xs) as Hin. rewrite <- E in Hin.
    apply list_elem_of_fmap in Hin as (r & Hr & Hin). eauto.
Qed.

Lemma max_id_or_zero_perm rs rs' :
  rs ≡ₚ rs' → max_id_or_zero rs = max_id_or_zero rs'.
Proof.
  intros Hp. destruct rs as [|r0 rs0].
  - apply Permutation_nil_l in Hp. by subst.
  - assert (rs' ≠ []) as Hne'.
    { intros ->. by apply Permutation_nil_r in Hp. }
    destruct (max_id_or_zero_attained (r0 :: rs0)) as (a & Ha & Ea); [done|].
    destruct (max_id_or_zero_attained rs') as (b & Hb & Eb); [done|].
    assert (id a ≤ max_id_or_zero rs').
    { apply max_id_or_zero_upper. by rewrite <- Hp. }
    assert (id b ≤ max_id_or_zero (r0 :: rs0)).
    { apply max_id_or_zero_upper. by rewrite Hp. }
    lia.
Qed.

(** ** What one run of sync does *)

Lemma spread_over_empty r : spread_over r ∅ = r.
Proof. destruct r as [i a]. unfold spread_over; simpl. by rewrite (left_id_L ∅ (∪)). Qed.

Lemma no_partner_ids (rs : list InventoryRecord) :
  foldl (λ (ids : list Z) (_ : InventoryRecord), ids) [] rs = [].
Proof. induction rs as [|r rs IH]; simpl; done. Qed.

(** The resolver settles with the records it was given and leaves the
    engine alone. *)
Lemma resolvePartnerNames_same rs w e :
  resolvePartnerNames rs w e = (Resolved rs, e).
Proof.
  unfold resolvePartnerNames, try_catch, and_then, read_partnerMap, resolve.
  rewrite no_partner_ids. simpl.
  f_equal. f_equal. induction rs as [|r rs IH]; [done|].
  rewrite fmap_cons, spread_over_empty. by f_equal.
Qed.

Lemma filter_not_in_set (existing fetched : list InventoryRecord) :
  filter (λ r, id r ∉ (list_to_set (id <$> existing) : gset Z)) fetched
  = filter (λ r, id r ∉ (id <$> existing)) fetched.
Proof.
  apply list_filter_iff. intros r. by rewrite elem_of_list_to_set.
Qed.

Local Ltac run_steps :=
  unfold and_then, try_catch, resolve, await, now, on_storage, update;
  cbn -[resolvePartnerNames Array_sort saveToStorage max_id_or_zero filter].

Lemma sync_unfold forceFullRefresh w e :
  sync forceFullRefresh w e = (Resolved (), sync_outcome forceFullRefresh w e).
Proof.
  unfold sync, sync_outcome, replaced, merged, merge_new, incremental_fetch,
    full_fetch, committed, failed, publish, meta_of, syncing_state.
  unfold and_then at 1. unfold update at 1. cbv beta iota zeta.
  unfold try_catch at 1. unfold and_then at 1. unfold read_store at 1.
  cbv beta iota zeta. cbn [store meta].
  set (wm := lastRecordId (meta (store e))).
  destruct forceFullRefresh; cbn [negb andb orb].
  - run_steps.
    destruct (OdooAPI.searchRecords _ _ [] _) as [l|msg]; run_steps.
    + by rewrite resolvePartnerNames_same.
    + done.
  - destruct (bool_decide (wm = 0)) eqn:E0.
    + apply bool_decide_eq_true in E0.
      rewrite bool_decide_eq_false_2 by lia.
      run_steps.
      destruct (OdooAPI.searchRecords _ _ [] _) as [l|msg]; run_steps.
      * by rewrite resolvePartnerNames_same.
      * done.
    + destruct (bool_decide (wm > 0)) eqn:E1.
      * run_steps.
        destruct (OdooAPI.searchRecords _ _ (newer_than wm) _) as [l|msg];
          run_steps.
        -- rewrite resolvePartnerNames_same.
           by rewrite filter_not_in_set.
        -- destruct (OdooAPI.searchRecords _ _ [] _) as [l|msg']; run_steps.
           ++ by rewrite resolvePartnerNames_same.
           ++ done.
      * run_steps. rewrite resolvePartnerNames_same.
        by rewrite filter_not_in_set.
Qed.

(** ** C1: the incremental fetch fails *)

Lemma sync_settles forceFullRefresh w e :
  (sync forceFullRefresh w e).1 = Resolved ().
Proof. by rewrite sync_unfold. Qed.

Lemma sync_after forceFullRefresh w e :
  (sync forceFullRefresh w e).2 = sync_outcome forceFullRefresh w e.
Proof. by rewrite sync_unfold. Qed.

Lemma replaced_not_syncing w e : syncing (store (replaced w e)) = false.
Proof. unfold replaced. by destruct (full_fetch w). Qed.

(** C1. When the incremental fetch of [sync(false)] is rejected, the run goes
    on exactly as [sync(true)] does from the same engine: it settles, with
    [syncing = false], and once the full fetch answers with [l] the published
    set is [l] sorted by identity, whatever was cached before. *)
Theorem sync_falls_back_to_full_fetch w e message :
  lastRecordId (meta (store e)) > 0 →
  incremental_fetch w e = Rejected message →
  sync false w e = sync true w e
  ∧ (sync false w e).1 = Resolved ()
  ∧ syncing (store (sync false w e).2) = false
  ∧ (∀ l, full_fetch w = Resolved l →
       records (store (sync false w e).2) = Array_sort by_id l
       ∧ error (store (sync false w e).2) = "").
Proof.
  intros Hwm Hinc.
  assert (sync_outcome false w e = replaced w e) as Hout.
  { unfold sync_outcome. simpl.
    rewrite bool_decide_eq_false_2 by lia.
    rewrite bool_decide_eq_true_2 by done.
    by rewrite Hinc. }
  rewrite !sync_unfold. simpl. rewrite Hout.
  split; [done|]. split; [done|].
  split; [apply replaced_not_syncing|].
  intros l Hl. unfold replaced. by rewrite Hl.
Qed.

Lemma sync_falls_back_to_full_fetch_witness :
  let w := world_fallback in
  let e := cache_1_2 empty_storage in
  lastRecordId (meta (store e)) > 0
  ∧ incremental_fetch w e = Rejected "timeout"
  ∧ sync false w e = sync true w e
  ∧ records (store (sync false w e).2) = [item 1 "Milk"; item 3 "Ham"].
Proof.
  intros w e.
  assert (lastRecordId (meta (store e)) > 0) as Hwm by reflexivity.
  assert (incremental_fetch w e = Rejected "timeout") as Hinc by reflexivity.
  destruct (sync_falls_back_to_full_fetch w e "timeout" Hwm Hinc)
    as (Heq & _ & _ & Hfull).
  split; [exact Hwm|]. split; [exact Hinc|]. split; [exact Heq|].
  destruct (Hfull [item 3 "Ham"; item 1 "Milk"] eq_refl) as [Hrs _].
  rewrite Hrs. reflexivity.
Defined.

(** ** C2: the incremental merge *)

Lemma sync_incremental w e fetched :
  lastRecordId (meta (store e)) > 0 →
  incremental_fetch w e = Resolved fetched →
  (sync false w e).2 = merged fetched w e.
Proof.
  intros Hwm Hinc. rewrite sync_after. unfold sync_outcome. simpl.
  rewrite bool_decide_eq_false_2 by lia.
  rewrite bool_decide_eq_true_2 by done.
  by rewrite Hinc.
Qed.

Lemma sorted_ids l : Sorted id_le l → Sorted Z.le (id <$> l).
Proof. apply Sorted_fmap. auto. Qed.

(** C2. In incremental mode the published set is a rearrangement of the
    cached records followed by the fetched records whose identity is not
    cached; it ascends by identity, records of one identity keeping their
    order; [lastRecordId] is the greatest identity in it (0 when it is
    empty), [recordCount] its length and [isStale] false. Fetching the
    identities 3, 7, 9 (in any order) into a cache with identities 1, 2 gives
    1, 2, 3, 7, 9 and [lastRecordId = 9]. *)
Theorem sync_incremental_merge w e fetched :
  lastRecordId (meta (store e)) > 0 →
  incremental_fetch w e = Resolved fetched →
  let existing := records (store e) in
  let s' := store (sync false w e).2 in
  let newRecords := filter (λ r, id r ∉ (id <$> existing)) fetched in
  records s' ≡ₚ existing ++ newRecords
  ∧ Sorted id_le (records s')
  ∧ (∀ k, filter (λ r, id r = k) (records s')
          = filter (λ r, id r = k) (existing ++ newRecords))
  ∧ (∀ r, r ∈ records s' → id r ≤ lastRecordId (meta s'))
  ∧ (records s' ≠ [] → ∃ r, r ∈ records s' ∧ id r = lastRecordId (meta s'))
  ∧ (records s' = [] → lastRecordId (meta s') = 0)
  ∧ recordCount (meta s') = Z.of_nat (length (records s'))
  ∧ isStale (meta s') = false
  ∧ lastSyncTime (meta s') = Date_now w
  ∧ syncing s' = false
  ∧ error s' = ""
  ∧ (id <$> existing = [1; 2] → id <$> fetched ≡ₚ [3; 7; 9] →
       id <$> records s' = [1; 2; 3; 7; 9] ∧ lastRecordId (meta s') = 9).
Proof.
  intros Hwm Hinc existing s' newRecords.
  assert (records s' = Array_sort by_id (existing ++ newRecords)) as Hrs.
  { unfold s'. by rewrite (sync_incremental w e fetched). }
  assert (lastRecordId (meta s') = max_id_or_zero (records s')) as Hmax.
  { unfold s'. by rewrite (sync_incremental w e fetched). }
  assert (records s' ≡ₚ existing ++ newRecords) as Hperm.
  { rewrite Hrs. apply Array_sort_perm. }
  assert (Sorted id_le (records s')) as Hsorted.
  { rewrite Hrs. apply Array_sort_by_id_sorted. }
  split; [done|]. split; [done|].
  split. { intros k. rewrite Hrs. apply Array_sort_by_id_stable. }
  split. { intros r Hr. rewrite Hmax. by apply max_id_or_zero_upper. }
  split. { intros Hne. rewrite Hmax. by apply max_id_or_zero_attained. }
  split. { intros Hnil. rewrite Hmax, Hnil. reflexivity. }
  split. { unfold s'. by rewrite (sync_incremental w e fetched). }
  split. { unfold s'. by rewrite (sync_incremental w e fetched). }
  split. { unfold s'. by rewrite (sync_incremental w e fetched). }
  split. { unfold s'. by rewrite (sync_incremental w e fetched). }
  split. { unfold s'. by rewrite (sync_incremental w e fetched). }
  intros Hex Hfe.
  assert (newRecords = fetched) as Hall.
  { unfold newRecords. rewrite Hex.
    assert (Forall (λ r, id r ∉ [1; 2]) fetched) as Hfa.
    { apply Forall_forall. intros r Hr.
      assert (id r ∈ [3; 7; 9]) as Hin.
      { rewrite <- Hfe. by apply list_elem_of_fmap_2. }
      intros Hbad.
      repeat (apply elem_of_cons in Hin as [Hin|Hin]);
        repeat (apply elem_of_cons in Hbad as [Hbad|Hbad]);
        try lia; by (apply elem_of_nil in Hin || apply elem_of_nil in Hbad). }
    clear -Hfa. induction Hfa as [|r l Hr Hl IH]; [done|].
    rewrite filter_cons. destruct (decide (id r ∉ [1; 2])); [|done].
    by rewrite IH. }
  assert (id <$> records s' ≡ₚ [1; 2; 3; 7; 9]) as Hids.
  { rewrite Hperm, Hall, fmap_app, Hex, Hfe. done. }
  assert (id <$> records s' = [1; 2; 3; 7; 9]) as Heq.
  { apply (Sorted_unique Z.le); [by apply sorted_ids| |done].
    repeat constructor; lia. }
  split; [done|].
  rewrite Hmax. unfold max_id_or_zero. rewrite Heq. reflexivity.
Qed.

Lemma sync_incremental_merge_witness :
  let w := world_3_7_9 in
  let e := cache_1_2 empty_storage in
  lastRecordId (meta (store e)) > 0
  ∧ incremental_fetch w e
    = Resolved [item 9 "Jam"; item 3 "Ham"; item 7 "Tea"]
  ∧ id <$> records (store (sync false w e).2) = [1; 2; 3; 7; 9]
  ∧ lastRecordId (meta (store (sync false w e).2)) = 9.
Proof.
  intros w e.
  assert (lastRecordId (meta (store e)) > 0) as Hwm by reflexivity.
  assert (incremental_fetch w e
          = Resolved [item 9 "Jam"; item 3 "Ham"; item 7 "Tea"]) as Hinc
    by reflexivity.
  split; [exact Hwm|]. split; [exact Hinc|].
  apply (sync_incremental_merge w e _ Hwm Hinc).
  - reflexivity.
  - vm_compute. apply (Permutation_cons_append [3; 7] 9).
Defined.

(** ** C3: a run of sync that fails *)

Lemma sync_full_mode forceFullRefresh w e :
  full_fetch_issued forceFullRefresh w e →
  sync_outcome forceFullRefresh w e = replaced w e.
Proof.
  unfold sync_outcome. intros [->|[H0|[Hpos [m Hm]]]].
  - done.
  - rewrite (bool_decide_eq_true_2 _ H0). by rewrite orb_true_r.
  - rewrite bool_decide_eq_false_2 by lia.
    rewrite bool_decide_eq_true_2 by done.
    rewrite Hm. by destruct forceFullRefresh.
Qed.

Lemma sync_outcome_store_storage forceFullRefresh w e ls :
  store (sync_outcome forceFullRefresh w (with_storage ls e))
  = store (sync_outcome forceFullRefresh w e)
  ∧ notified (sync_outcome forceFullRefresh w (with_storage ls e))
    = notified (sync_outcome forceFullRefresh w e).
Proof.
  unfold sync_outcome, replaced, merged, incremental_fetch. simpl.
  destruct (forceFullRefresh || bool_decide (lastRecordId (meta (store e)) = 0)).
  - by destruct (full_fetch w).
  - destruct (bool_decide (lastRecordId (meta (store e)) > 0)); [|done].
    destruct (OdooAPI.searchRecords _ _ _ _); [done|].
    by destruct (full_fetch w).
Qed.

(** C3, counterexample. The forced sync below cannot write to the durable
    storage (both entries stay absent), yet it publishes no error and
    replaces the cached records 1 and 2 by record 3. *)
Lemma sync_swallows_persistence_failure :
  let e := cache_1_2 full_storage in
  let e' := (sync true world_only_3 e).2 in
  setItem_throws (localStorage e) CACHE_KEY = true
  ∧ localStorage e' = localStorage e
  ∧ error (store e') = ""
  ∧ records (store e') = [item 3 "Ham"]
  ∧ records (store e') ≠ records (store e)
  ∧ meta (store e') ≠ meta (store e).
Proof.
  intros e e'. rewrite (sync_after true world_only_3 e : e' = _).
  repeat split; discriminate.
Qed.

(** C3, amended. When the full fetch of a run is rejected (issued at once or
    as the fallback of a rejected incremental fetch), the run ends with
    [syncing = false], the message of the rejection in [error] (the text
    "Failed to sync data" if the message is empty), and the records, the
    metadata and the durable storage as they were. The durable storage has
    no part in what a run publishes: with any other storage in its place,
    one that refuses the writes included, the published states are the
    same. *)
Theorem sync_failure_keeps_cache forceFullRefresh w e :
  (∀ message,
     full_fetch_issued forceFullRefresh w e →
     full_fetch w = Rejected message →
     let e' := (sync forceFullRefresh w e).2 in
     syncing (store e') = false
     ∧ error (store e') = or_string message "Failed to sync data"
     ∧ (message ≠ "" → error (store e') = message)
     ∧ records (store e') = records (store e)
     ∧ meta (store e') = meta (store e)
     ∧ localStorage e' = localStorage e)
  ∧ (∀ ls,
       store (sync forceFullRefresh w (with_storage ls e)).2
       = store (sync forceFullRefresh w e).2
       ∧ notified (sync forceFullRefresh w (with_storage ls e)).2
         = notified (sync forceFullRefresh w e).2).
Proof.
  split.
  - intros message Hissued Hfull e'. unfold e'.
    rewrite sync_after, (sync_full_mode _ _ _ Hissued).
    unfold replaced. rewrite Hfull. simpl.
    repeat split; try done.
    intros Hne. by destruct message.
  - intros ls. rewrite !sync_after. apply sync_outcome_store_storage.
Qed.

Lemma sync_failure_keeps_cache_witness :
  let w := world_down in
  let e := cache_1_2 empty_storage in
  full_fetch_issued false w e
  ∧ full_fetch w = Rejected "Network unreachable"
  ∧ syncing (store (sync false w e).2) = false
  ∧ error (store (sync false w e).2) = "Network unreachable"
  ∧ records (store (sync false w e).2) = records (store e)
  ∧ meta (store (sync false w e).2) = meta (store e).
Proof.
  intros w e.
  assert (full_fetch_issued false w e) as Hissued.
  { right. right. split; [reflexivity|]. by exists "timeout". }
  assert (full_fetch w = Rejected "Network unreachable") as Hfull
    by reflexivity.
  destruct (proj1 (sync_failure_keeps_cache false w e) _ Hissued Hfull)
    as (H1 & H2 & _ & H3 & H4 & _).
  split; [exact Hissued|]. split; [exact Hfull|].
  split; [exact H1|]. split; [exact H2|]. split; [exact H3|exact H4].
Defined.

(** ** C4, C5, C6: the mutations *)







(** C6. [deleteRecord(id)] awaits the remote delete first. If it is
    rejected, the call rejects with the same error and the engine is as it
    was, so every cached record, the one with identity [id] included, is
    still published. Only when the remote delete succeeds are the records
    with that identity removed from the published set, and the call returns
    true. *)
Theorem deleteRecord_remote_first i w e :
  (∀ message,
     OdooAPI.deleteRecord (odooClient w) "x_inventory" i = Rejected message →
     deleteRecord i w e = (Rejected message, e)
     ∧ notified (deleteRecord i w e).2 = notified e
     ∧ ∀ r, r ∈ records (store e) → r ∈ records (store (deleteRecord i w e).2))
  ∧ (∀ b,
       OdooAPI.deleteRecord (odooClient w) "x_inventory" i = Resolved b →
       deleteRecord i w e = (Resolved true, publish (removed i (store e)) e)
       ∧ records (store (deleteRecord i w e).2)
         = filter (λ r, id r ≠ i) (records (store e))
       ∧ ∀ r, r ∈ records (store (deleteRecord i w e).2) ↔
              r ∈ records (store e) ∧ id r ≠ i)
  ∧ (records (store (deleteRecord i w e).2) ≠ records (store e) →
     ∃ b, OdooAPI.deleteRecord (odooClient w) "x_inventory" i = Resolved b).
Proof.
  split; [|split].
  - intros message Hrej.
    assert (deleteRecord i w e = (Rejected message, e)) as Heq.
    { unfold deleteRecord, try_catch, and_then, await, throw. by rewrite Hrej. }
    by rewrite Heq.
  - intros b Hok.
    assert (deleteRecord i w e = (Resolved true, publish (removed i (store e)) e))
      as Heq.
    { unfold deleteRecord, try_catch, and_then, await, update, resolve.
      by rewrite Hok. }
    rewrite Heq. simpl. split; [done|]. split; [done|].
    intros r. rewrite list_elem_of_filter. tauto.
  - intros Hchanged.
    destruct (OdooAPI.deleteRecord (odooClient w) "x_inventory" i)
      as [b|message] eqn:E; [by exists b|].
    exfalso. apply Hchanged.
    unfold deleteRecord, try_catch, and_then, await, throw. by rewrite E.
Qed.

Lemma deleteRecord_remote_first_witness :
  let e := cache_1_2 empty_storage in
  (OdooAPI.deleteRecord (odooClient world_delete_refused) "x_inventory" 2
   = Rejected "Record is locked"
   ∧ (deleteRecord 2 world_delete_refused e).1 = Rejected "Record is locked"
   ∧ item 2 "Eggs" ∈ records (store (deleteRecord 2 world_delete_refused e).2))
  ∧ (OdooAPI.deleteRecord (odooClient world_delete_accepted) "x_inventory" 2
     = Resolved true
     ∧ records (store (deleteRecord 2 world_delete_accepted e).2)
       = [item 1 "Milk"]).
Proof.
  intros e. split.
  - split; [reflexivity|].
    destruct (proj1 (deleteRecord_remote_first 2 world_delete_refused e)
                "Record is locked" eq_refl) as (Heq & _ & Hkeep).
    split; [by rewrite Heq|].
    apply Hkeep. right. left.
  - split; [reflexivity|].
    destruct (proj1 (proj2 (deleteRecord_remote_first 2 world_delete_accepted e))
                true eq_refl) as (_ & Hrs & _).
    rewrite Hrs. vm_compute. reflexivity.
Defined.

(** ** C7: two runs with nothing new on the remote *)

Lemma merge_new_nothing existing : merge_new existing [] = existing.
Proof. unfold merge_new. by rewrite filter_nil, app_nil_r. Qed.

Lemma sync_nothing_newer w e :
  nothing_newer w e →
  sync_outcome false w e
  = committed (Date_now w)
      (if bool_decide (lastRecordId (meta (store e)) = 0) then []
       else Array_sort by_id (records (store e))) e.
Proof.
  intros [Hinc Hfull]. unfold sync_outcome, replaced, merged. simpl.
  destruct (bool_decide (lastRecordId (meta (store e)) = 0)) eqn:E0.
  - apply bool_decide_eq_true in E0. by rewrite (Hfull E0).
  - destruct (bool_decide (lastRecordId (meta (store e)) > 0)) eqn:E1.
    + apply bool_decide_eq_true in E1. rewrite (Hinc E1).
      by rewrite merge_new_nothing.
    + by rewrite merge_new_nothing.
Qed.

Lemma max_id_positive rs :
  Forall (λ r, 0 < id r) rs → rs ≠ [] → 0 < max_id_or_zero rs.
Proof.
  intros Hpos Hne. destruct (max_id_or_zero_attained rs Hne) as (r & Hr & <-).
  by eapply Forall_forall in Hpos.
Qed.

(** C7. Let the cached identities be positive, as the identities the remote
    assigns are, and let two runs of [sync(false)] follow each other, each
    finding nothing newer than its watermark on the remote. The second run
    publishes the record set of the first and the same [lastRecordId],
    [recordCount] and [isStale]; of the whole published state only
    [lastSyncTime] differs, being the time of the second run. *)
Theorem sync_twice_same_set w1 w2 e :
  Forall (λ r, 0 < id r) (records (store e)) →
  nothing_newer w1 e →
  nothing_newer w2 (sync false w1 e).2 →
  let s1 := store (sync false w1 e).2 in
  let s2 := store (sync false w2 (sync false w1 e).2).2 in
  records s2 = records s1
  ∧ lastRecordId (meta s2) = lastRecordId (meta s1)
  ∧ lastSyncTime (meta s1) = Date_now w1
  ∧ lastSyncTime (meta s2) = Date_now w2
  ∧ s2 = {| records := records s1; loading := loading s1;
            syncing := syncing s1; error := error s1;
            meta := {| lastSyncTime := Date_now w2;
                       lastRecordId := lastRecordId (meta s1);
                       recordCount := recordCount (meta s1);
                       isStale := isStale (meta s1) |} |}.
Proof.
  intros Hpos H1 H2 s1 s2. unfold s1, s2. clear s1 s2.
  rewrite !sync_after in *.
  rewrite (sync_nothing_newer w2 _ H2).
  rewrite (sync_nothing_newer w1 e H1) in *.
  set (rs1 := if bool_decide (lastRecordId (meta (store e)) = 0) then []
              else Array_sort by_id (records (store e))) in *.
  assert (Forall (λ r, 0 < id r) rs1) as Hpos1.
  { unfold rs1. destruct (bool_decide _); [constructor|].
    by rewrite Array_sort_perm. }
  assert (Sorted id_le rs1) as Hsorted1.
  { unfold rs1. destruct (bool_decide _); [constructor|].
    apply Array_sort_by_id_sorted. }
  simpl.
  assert ((if bool_decide (max_id_or_zero rs1 = 0) then []
           else Array_sort by_id rs1) = rs1) as ->.
  { case_bool_decide as Hz.
    - destruct rs1 as [|r rs]; [done|].
      assert (0 < max_id_or_zero (r :: rs)); [|lia].
      by apply max_id_positive.
    - by apply Array_sort_by_id_fixed. }
  done.
Qed.

Lemma sync_twice_same_set_witness :
  let e := cache_1_2 empty_storage in
  let s1 := store (sync false (world_quiet 2000) e).2 in
  let s2 := store (sync false (world_quiet 3000)
                     (sync false (world_quiet 2000) e).2).2 in
  Forall (λ r, 0 < id r) (records (store e))
  ∧ nothing_newer (world_quiet 2000) e
  ∧ nothing_newer (world_quiet 3000) (sync false (world_quiet 2000) e).2
  ∧ records s2 = records s1
  ∧ lastRecordId (meta s2) = lastRecordId (meta s1)
  ∧ lastSyncTime (meta s1) = 2000
  ∧ lastSyncTime (meta s2) = 3000.
Proof.
  intros e s1 s2.
  assert (Forall (λ r, 0 < id r) (records (store e))) as Hpos.
  { repeat constructor. }
  assert (nothing_newer (world_quiet 2000) e) as H1.
  { split; [reflexivity|]. intros Hz. vm_compute in Hz. discriminate Hz. }
  assert (nothing_newer (world_quiet 3000) (sync false (world_quiet 2000) e).2)
    as H2.
  { split; [reflexivity|]. intros Hz. vm_compute in Hz. discriminate Hz. }
  destruct (sync_twice_same_set (world_quiet 2000) (world_quiet 3000) e
              Hpos H1 H2) as (Ha & Hb & Hc & Hd & _).
  split; [exact Hpos|]. split; [exact H1|]. split; [exact H2|].
  split; [exact Ha|]. split; [exact Hb|]. split; [exact Hc|exact Hd].
Defined.

(** ** C8: the order of the published set *)

Lemma or_string_not_empty message : or_string message "Failed to sync data" ≠ "".
Proof. by destruct message. Qed.

(** A run that published no error ended with a sorted record set. *)
Lemma sync_success_sorted forceFullRefresh w e :
  error (store (sync_outcome forceFullRefresh w e)) = "" →
  ∃ l, records (store (sync_outcome forceFullRefresh w e)) = Array_sort by_id l
       ∧ (l = merge_new (records (store e)) []
          ∨ (∃ fetched, incremental_fetch w e = Resolved fetched
                        ∧ l = merge_new (records (store e)) fetched)
          ∨ full_fetch w = Resolved l).
Proof.
  unfold sync_outcome, replaced, merged.
  destruct (forceFullRefresh || bool_decide (lastRecordId (meta (store e)) = 0)).
  - destruct (full_fetch w) as [l|m]; simpl.
    + intros _. exists l. auto.
    + intros H. by apply or_string_not_empty in H.
  - destruct (bool_decide (lastRecordId (meta (store e)) > 0)).
    + destruct (incremental_fetch w e) as [fetched|m0]; simpl.
      * intros _. eexists. split; [done|]. right. left. eauto.
      * destruct (full_fetch w) as [l|m]; simpl.
        -- intros _. exists l. auto.
        -- intros H. by apply or_string_not_empty in H.
    + simpl. intros _. eexists. split; [done|]. by left.
Qed.

Lemma merge_new_distinct existing fetched :
  NoDup (id <$> existing) → NoDup (id <$> fetched) →
  NoDup (id <$> merge_new existing fetched).
Proof.
  intros He Hf. unfold merge_new. rewrite fmap_app. apply NoDup_app.
  split; [done|]. split.
  - intros i Hi Hin. apply list_elem_of_fmap in Hin as (r & -> & Hr).
    apply list_elem_of_filter in Hr as [Hnot _]. by apply Hnot.
  - eapply sublist_NoDup; [exact Hf|].
    apply fmap_sublist, sublist_filter.
Qed.

(** C8, counterexample. An incremental sync that succeeds and fetches nothing
    publishes the identities 1, 2, 2: the records at positions 1 and 2 are not
    in strictly ascending order. *)
Lemma sync_keeps_duplicate_identities :
  let s' := store (sync false (world_quiet 2000) cache_1_2_2).2 in
  error s' = "" ∧ syncing s' = false
  ∧ id <$> records s' = [1; 2; 2]
  ∧ ∃ a b, records s' !! 1%nat = Some a ∧ records s' !! 2%nat = Some b
           ∧ ¬ id a < id b.
Proof.
  intros s'. split; [reflexivity|]. split; [reflexivity|].
  split; [reflexivity|].
  exists (item 2 "Eggs"), (item 2 "Eggs").
  split; [reflexivity|]. split; [reflexivity|]. simpl. lia.
Qed.

(** C8, amended. The record set a successful sync publishes (forced or not)
    ascends by identity: [records[i].id <= records[i+1].id]. It ascends
    strictly, so that no identity occurs twice, whenever the identities
    cached before the run are pairwise distinct and so are those of every
    list the remote answers with. *)
Theorem sync_leaves_set_ascending forceFullRefresh w e :
  error (store (sync forceFullRefresh w e).2) = "" →
  let rs := records (store (sync forceFullRefresh w e).2) in
  Sorted id_le rs
  ∧ (∀ (i : nat) a b, rs !! i = Some a → rs !! S i = Some b → id a ≤ id b)
  ∧ (NoDup (id <$> records (store e)) → remote_ids_distinct w →
       Sorted id_lt rs
       ∧ NoDup (id <$> rs)
       ∧ ∀ (i : nat) a b, rs !! i = Some a → rs !! S i = Some b → id a < id b).
Proof.
  rewrite sync_after. intros Hok rs.
  destruct (sync_success_sorted _ _ _ Hok) as (l & Hrs & Hl).
  fold rs in Hrs.
  assert (Sorted id_le rs) as Hsorted.
  { rewrite Hrs. apply Array_sort_by_id_sorted. }
  assert (∀ R : relation InventoryRecord, Sorted R rs →
          ∀ (i : nat) a b, rs !! i = Some a → rs !! S i = Some b → R a b)
    as Hadj.
  { intros R HR. clear -HR. induction HR as [|x l' Hl' IH Hhd]; intros i a b.
    - by rewrite lookup_nil.
    - destruct i as [|i]; simpl.
      + intros [= ->] Hb. destruct Hhd as [|y l'' Hxy]; [done|].
        by injection Hb as ->.
      + apply IH. }
  split; [done|]. split; [by apply Hadj|].
  intros Hcache Hremote.
  assert (NoDup (id <$> l)) as Hnd.
  { destruct Hl as [->|[(fetched & Hf & ->)|Hfull]].
    - apply merge_new_distinct; [done|constructor].
    - apply merge_new_distinct; [done|]. by eapply Hremote.
    - by eapply Hremote. }
  assert (NoDup (id <$> rs)) as Hnd'.
  { by rewrite Hrs, Array_sort_perm. }
  assert (Sorted id_lt rs) as Hstrict by by apply sorted_distinct_strict.
  split; [done|]. split; [done|]. by apply Hadj.
Qed.

Lemma sync_leaves_set_ascending_witness :
  let w := world_3_7_9 in
  let e := cache_1_2 empty_storage in
  error (store (sync false w e).2) = ""
  ∧ NoDup (id <$> records (store e))
  ∧ remote_ids_distinct w
  ∧ Sorted id_lt (records (store (sync false w e).2)).
Proof.
  intros w e.
  assert (error (store (sync false w e).2) = "") as Hok by reflexivity.
  assert (NoDup (id <$> records (store e))) as Hcache.
  { apply (NoDup_ListNoDup [1; 2]). repeat constructor; simpl; lia. }
  assert (remote_ids_distinct w) as Hremote.
  { intros d l. destruct d as [|t d]; simpl; [discriminate|].
    intros [= <-]. apply (NoDup_ListNoDup [9; 3; 7]).
    repeat constructor; simpl; lia. }
  destruct (sync_leaves_set_ascending false w e Hok) as (_ & _ & Hstrict).
  split; [exact Hok|]. split; [exact Hcache|]. split; [exact Hremote|].
  exact (proj1 (Hstrict Hcache Hremote)).
Defined.

(** ** C9 and C10: loading the durable mirror *)

(** C9. With both entries of the mirror readable, the staleness flag is true
    exactly when [now - lastSyncTime] exceeds the window of 5 minutes
    (300000 ms): true for a mirror synced 6 minutes ago, false for one synced
    4 minutes ago; [createCacheStore] starts with that flag. *)
Theorem staleness_after_five_minutes t ls rs m :
  cache_item ls = json rs →
  meta_item ls = json m →
  let loaded := loadFromStorage t ls in
  CACHE_DURATION_MS = 300000
  ∧ (isStale (loaded_meta loaded) = true
     ↔ t - lastSyncTime m > CACHE_DURATION_MS)
  ∧ (lastSyncTime m = t - 6 * 60 * 1000 → isStale (loaded_meta loaded) = true)
  ∧ (lastSyncTime m = t - 4 * 60 * 1000 → isStale (loaded_meta loaded) = false)
  ∧ isStale (meta (store (createCacheStore t ls)))
    = isStale (loaded_meta loaded).
Proof.
  intros Hc Hm loaded.
  assert (isStale (loaded_meta loaded)
          = bool_decide (t - lastSyncTime m > CACHE_DURATION_MS)) as Hflag.
  { unfold loaded, loadFromStorage. by rewrite Hc, Hm. }
  split; [reflexivity|]. split.
  { rewrite Hflag. apply bool_decide_eq_true. }
  split.
  { intros Ht. rewrite Hflag. apply bool_decide_eq_true.
    unfold CACHE_DURATION_MS. lia. }
  split.
  { intros Ht. rewrite Hflag. apply bool_decide_eq_false.
    unfold CACHE_DURATION_MS. lia. }
  reflexivity.
Qed.

Lemma staleness_after_five_minutes_witness :
  let t := 1700000000000 in
  isStale (loaded_meta (loadFromStorage t (mirror_synced_at (t - 6 * 60 * 1000))))
  = true
  ∧ isStale (loaded_meta (loadFromStorage t (mirror_synced_at (t - 4 * 60 * 1000))))
    = false.
Proof.
  intros t. split.
  - destruct (staleness_after_five_minutes t
                (mirror_synced_at (t - 6 * 60 * 1000)) _ _ eq_refl eq_refl)
      as (_ & _ & Hsix & _).
    apply Hsix. reflexivity.
  - destruct (staleness_after_five_minutes t
                (mirror_synced_at (t - 4 * 60 * 1000)) _ _ eq_refl eq_refl)
      as (_ & _ & _ & Hfour & _).
    apply Hfour. reflexivity.
Defined.

(** C10. If either entry of the mirror is absent, or is a string that
    [JSON.parse] throws on, [loadFromStorage] returns the default: no
    records and the metadata 0, 0, 0, stale. [createCacheStore] then starts
    from exactly that state, with no flag set, no error and nothing
    published. *)
Theorem loadFromStorage_defaults t ls :
  cache_item ls = absent ∨ meta_item ls = absent
  ∨ cache_item ls = garbled ∨ meta_item ls = garbled →
  loadFromStorage t ls
  = {| loaded_records := [];
       loaded_meta := {| lastSyncTime := 0; lastRecordId := 0;
                         recordCount := 0; isStale := true |} |}
  ∧ store (createCacheStore t ls)
    = {| records := []; loading := false; syncing := false; error := "";
         meta := {| lastSyncTime := 0; lastRecordId := 0;
                    recordCount := 0; isStale := true |} |}
  ∧ notified (createCacheStore t ls) = [].
Proof.
  intros H.
  assert (loadFromStorage t ls = default_loaded) as Hload.
  { unfold loadFromStorage.
    destruct (cache_item ls) as [| |rs], (meta_item ls) as [| |m]; simpl;
      try done.
    destruct H as [H|[H|[H|H]]]; discriminate. }
  split; [exact Hload|]. split; [|done].
  unfold createCacheStore. by rewrite Hload.
Qed.

Lemma loadFromStorage_defaults_witness :
  loadFromStorage 2000 mirror_without_meta = default_loaded
  ∧ loadFromStorage 2000 mirror_with_garbled_records = default_loaded
  ∧ records (store (createCacheStore 2000 mirror_with_garbled_records)) = [].
Proof.
  split; [|split].
  - apply (loadFromStorage_defaults 2000 mirror_without_meta).
    right. left. reflexivity.
  - apply (loadFromStorage_defaults 2000 mirror_with_garbled_records).
    right. right. left. reflexivity.
  - destruct (loadFromStorage_defaults 2000 mirror_with_garbled_records)
      as (_ & Hstore & _).
    + right. right. left. reflexivity.
    + by rewrite Hstore.
Defined.

(** * Further properties of the store *)

(** ** The durable mirror *)

Lemma or_number_zero a : or_number a 0 = a.
Proof. unfold or_number. destruct (Z.eqb_spec a 0); congruence. Qed.

Lemma saveToStorage_writable t rs m ls :
  writable ls →
  saveToStorage t rs m ls
  = {| cache_item := json rs;
       meta_item := json {| lastSyncTime := or_number (lastSyncTime m) t;
                            lastRecordId := lastRecordId m;
                            recordCount := Z.of_nat (length rs);
                            isStale := false |};
       setItem_throws := setItem_throws ls |}.
Proof.
  intros [Hc Hm]. unfold saveToStorage, setItem_cache, setItem_meta.
  rewrite Hc. simpl. rewrite Hm. simpl. by rewrite or_number_zero.
Qed.

Lemma loadFromStorage_saved t t' rs m ls :
  writable ls →
  loaded_records (loadFromStorage t' (saveToStorage t rs m ls)) = rs
  ∧ loaded_meta (loadFromStorage t' (saveToStorage t rs m ls))
    = reloaded_meta t'
        {| lastSyncTime := or_number (lastSyncTime m) t;
           lastRecordId := lastRecordId m;
           recordCount := Z.of_nat (length rs);
           isStale := false |}.
Proof.
  intros Hw. by rewrite (saveToStorage_writable _ _ _ _ Hw).
Qed.

(** X1. What [saveToStorage] wrote to a writable storage, [loadFromStorage]
    reads back: the same records, [lastRecordId] as given, [lastSyncTime] as
    given (the time of the save when it was 0), [recordCount] the length of
    the records whatever the metadata said, and [isStale] computed anew from
    the time of the load. *)
Theorem saveToStorage_then_loadFromStorage t t' rs m ls :
  writable ls →
  loadFromStorage t' (saveToStorage t rs m ls)
  = {| loaded_records := rs;
       loaded_meta :=
         {| lastSyncTime := or_number (lastSyncTime m) t;
            lastRecordId := lastRecordId m;
            recordCount := Z.of_nat (length rs);
            isStale := bool_decide (t' - or_number (lastSyncTime m) t
                                    > CACHE_DURATION_MS) |} |}.
Proof.
  intros Hw. by rewrite (saveToStorage_writable _ _ _ _ Hw).
Qed.

Lemma saveToStorage_then_loadFromStorage_witness :
  writable empty_storage
  ∧ loadFromStorage 2500
      (saveToStorage 2000 [item 1 "Milk"]
         {| lastSyncTime := 0; lastRecordId := 1; recordCount := 7;
            isStale := true |} empty_storage)
    = {| loaded_records := [item 1 "Milk"];
         loaded_meta := {| lastSyncTime := 2000; lastRecordId := 1;
                           recordCount := 1; isStale := false |} |}.
Proof.
  assert (writable empty_storage) as Hw by (split; reflexivity).
  split; [exact Hw|].
  rewrite (saveToStorage_then_loadFromStorage 2000 2500 _ _ _ Hw).
  reflexivity.
Defined.

(** X2. A write that throws tears the mirror. If the records cannot be
    written, the storage stays as it was. If the records can be written and
    the metadata cannot, the new records stand beside the previous metadata
    entry, and a later load pairs them: it returns the new records with the
    old [lastRecordId] and [recordCount]. *)
Theorem saveToStorage_torn_write t rs m ls :
  (setItem_throws ls CACHE_KEY = true → saveToStorage t rs m ls = ls)
  ∧ (setItem_throws ls CACHE_KEY = false →
     setItem_throws ls CACHE_META_KEY = true →
     cache_item (saveToStorage t rs m ls) = json rs
     ∧ meta_item (saveToStorage t rs m ls) = meta_item ls
     ∧ ∀ t' m0, meta_item ls = json m0 →
         loadFromStorage t' (saveToStorage t rs m ls)
         = {| loaded_records := rs; loaded_meta := reloaded_meta t' m0 |}).
Proof.
  unfold saveToStorage, setItem_cache, setItem_meta. split.
  - by intros ->.
  - intros -> Hm. simpl. rewrite Hm. simpl. repeat split.
    intros t' m0 Hm0. unfold loadFromStorage. simpl. by rewrite Hm0.
Qed.

Lemma saveToStorage_torn_write_witness :
  let ls := storage_refusing_meta (mirror_synced_at 1000) in
  setItem_throws ls CACHE_KEY = false
  ∧ setItem_throws ls CACHE_META_KEY = true
  ∧ loadFromStorage 2500
      (saveToStorage 2000 [item 1 "Milk"; item 2 "Eggs"]
         (meta_of 2000 [item 1 "Milk"; item 2 "Eggs"]) ls)
    = {| loaded_records := [item 1 "Milk"; item 2 "Eggs"];
         loaded_meta := {| lastSyncTime := 1000; lastRecordId := 1;
                           recordCount := 1; isStale := false |} |}.
Proof.
  intros ls. split; [reflexivity|]. split; [reflexivity|].
  destruct (proj2 (saveToStorage_torn_write 2000
                     [item 1 "Milk"; item 2 "Eggs"]
                     (meta_of 2000 [item 1 "Milk"; item 2 "Eggs"]) ls)
              eq_refl eq_refl) as (_ & _ & Hload).
  rewrite (Hload 2500 _ eq_refl). reflexivity.
Defined.

(** ** Every run of sync *)

(** A run ends in one of two ways: it commits a record set, or its full
    fetch was issued and rejected. *)
Lemma sync_outcome_cases forceFullRefresh w e :
  (∃ rs, sync_outcome forceFullRefresh w e = committed (Date_now w) rs e
         ∧ ¬ (full_fetch_issued forceFullRefresh w e
              ∧ ∃ message, full_fetch w = Rejected message))
  ∨ (∃ message, sync_outcome forceFullRefresh w e = failed message e
                ∧ full_fetch_issued forceFullRefresh w e
                ∧ full_fetch w = Rejected message).
Proof.
  unfold sync_outcome, replaced, merged, full_fetch_issued.
  destruct forceFullRefresh; simpl.
  - destruct (full_fetch w) as [l|m].
    + left. eexists. split; [done|]. by intros [_ [? ?]].
    + right. exists m. auto.
  - case_bool_decide as H0.
    + destruct (full_fetch w) as [l|m].
      * left. eexists. split; [done|]. by intros [_ [? ?]].
      * right. exists m. auto.
    + case_bool_decide as H1.
      * destruct (incremental_fetch w e) as [fetched|m0].
        -- left. eexists. split; [done|].
           intros [[?|[?|[_ [? ?]]]] _]; done.
        -- destruct (full_fetch w) as [l|m].
           ++ left. eexists. split; [done|]. by intros [_ [? ?]].
           ++ right. exists m. split; [done|]. split; [|done].
              right. right. split; [done|]. by exists m0.
      * left. eexists. split; [done|].
        intros [[?|[?|[? _]]] _]; done.
Qed.

(** X3. Every run of sync settles without an error for its caller and tells
    the subscribers exactly two states: first the state it found, records
    and metadata untouched, with [syncing = true] and the error cleared; then
    its final state, with [syncing = false] and the [loading] flag it found.
    The partner map is left alone. *)
Theorem sync_publishes_twice forceFullRefresh w e :
  (sync forceFullRefresh w e).1 = Resolved ()
  ∧ ∃ s_start s_end,
      notified (sync forceFullRefresh w e).2 = notified e ++ [s_start; s_end]
      ∧ store (sync forceFullRefresh w e).2 = s_end
      ∧ records s_start = records (store e)
      ∧ meta s_start = meta (store e)
      ∧ syncing s_start = true
      ∧ error s_start = ""
      ∧ syncing s_end = false
      ∧ loading s_end = loading (store e)
      ∧ partnerMap (sync forceFullRefresh w e).2 = partnerMap e.
Proof.
  split; [apply sync_settles|].
  rewrite sync_after.
  destruct (sync_outcome_cases forceFullRefresh w e)
    as [(rs & -> & _)|(m & -> & _)];
    eexists _, _; simpl; rewrite <- app_assoc; repeat split.
Qed.

(** X4. The metadata of a successful run describe the set it publishes, in
    full mode as in incremental mode: [recordCount] is its length,
    [lastRecordId] bounds every identity in it and is the identity of one of
    its records (0 when there is none), [isStale] is false and
    [lastSyncTime] is the time of the run. *)
Theorem sync_metadata_describe_set forceFullRefresh w e :
  error (store (sync forceFullRefresh w e).2) = "" →
  let s' := store (sync forceFullRefresh w e).2 in
  recordCount (meta s') = Z.of_nat (length (records s'))
  ∧ (∀ r, r ∈ records s' → id r ≤ lastRecordId (meta s'))
  ∧ (records s' ≠ [] → ∃ r, r ∈ records s' ∧ id r = lastRecordId (meta s'))
  ∧ (records s' = [] → lastRecordId (meta s') = 0)
  ∧ isStale (meta s') = false
  ∧ lastSyncTime (meta s') = Date_now w.
Proof.
  rewrite sync_after.
  destruct (sync_outcome_cases forceFullRefresh w e)
    as [(rs & -> & _)|(m & -> & _)]; simpl.
  - intros _. split; [done|].
    split; [intros r; apply max_id_or_zero_upper|].
    split; [apply max_id_or_zero_attained|].
    split; [by intros ->|done].
  - intros H. by apply or_string_not_empty in H.
Qed.

Lemma sync_metadata_describe_set_witness :
  let s' := store (sync true (world_full_1_2_3 2000)
                     (cache_1_2 empty_storage)).2 in
  error s' = ""
  ∧ recordCount (meta s') = 3
  ∧ ∃ r, r ∈ records s' ∧ id r = lastRecordId (meta s').
Proof.
  intros s'. unfold s'. clear s'.
  assert (error (store (sync true (world_full_1_2_3 2000)
                          (cache_1_2 empty_storage)).2) = "") as Hok
    by reflexivity.
  destruct (sync_metadata_describe_set true (world_full_1_2_3 2000)
              (cache_1_2 empty_storage) Hok) as (Hcount & _ & Hmax & _).
  split; [exact Hok|]. split.
  - rewrite Hcount. reflexivity.
  - apply Hmax. discriminate.
Defined.

(** X5. After a successful run over a writable storage the mirror holds what
    was published: a load at any later time returns the published records
    and metadata, with the staleness flag recomputed. A store created from
    that mirror within the freshness window starts from the published
    state. *)
Theorem sync_mirrors_what_it_publishes forceFullRefresh w e :
  writable (localStorage e) →
  error (store (sync forceFullRefresh w e).2) = "" →
  let e' := (sync forceFullRefresh w e).2 in
  ∀ t',
    loadFromStorage t' (localStorage e')
    = {| loaded_records := records (store e');
         loaded_meta := reloaded_meta t' (meta (store e')) |}
    ∧ (loading (store e) = false →
       t' - Date_now w ≤ CACHE_DURATION_MS →
       store (createCacheStore t' (localStorage e')) = store e').
Proof.
  intros Hw. rewrite sync_after.
  destruct (sync_outcome_cases forceFullRefresh w e)
    as [(rs & -> & _)|(m & -> & _)]; simpl.
  - intros _ t'.
    assert (loadFromStorage t'
              (saveToStorage (Date_now w) rs (meta_of (Date_now w) rs)
                 (localStorage e))
            = {| loaded_records := rs;
                 loaded_meta := reloaded_meta t' (meta_of (Date_now w) rs) |})
      as Hload.
    { destruct (loadFromStorage_saved (Date_now w) t' rs
                  (meta_of (Date_now w) rs) (localStorage e) Hw) as [Hrs Hmeta].
      destruct (loadFromStorage _ _) as [rs0 m0]. simpl in Hrs, Hmeta.
      rewrite Hrs, Hmeta. unfold reloaded_meta, or_number. simpl.
      by destruct (Date_now w =? 0) eqn:E; [apply Z.eqb_eq in E as ->|]. }
    split; [exact Hload|].
    intros Hloading Hfresh. unfold createCacheStore. rewrite Hload. simpl.
    unfold reloaded_meta, meta_of. simpl.
    rewrite bool_decide_eq_false_2 by lia. by rewrite Hloading.
  - intros H. by apply or_string_not_empty in H.
Qed.

Lemma sync_mirrors_what_it_publishes_witness :
  let e := cache_1_2 empty_storage in
  let e' := (sync true (world_full_1_2_3 2000) e).2 in
  writable (localStorage e)
  ∧ error (store e') = ""
  ∧ store (createCacheStore 2500 (localStorage e')) = store e'.
Proof.
  intros e e'.
  assert (writable (localStorage e)) as Hw by (split; reflexivity).
  assert (error (store e') = "") as Hok by reflexivity.
  split; [exact Hw|]. split; [exact Hok|].
  apply (sync_mirrors_what_it_publishes true (world_full_1_2_3 2000) e Hw Hok
           2500).
  - reflexivity.
  - vm_compute. discriminate.
Defined.

(** X6. The status summary after a run: [isSyncing] is false, and
    [hasError] is true exactly when the full fetch of the run was issued and
    rejected, also when the rejection carries an empty message. *)
Theorem cacheStatus_after_sync forceFullRefresh w e :
  let status := cacheStatus (store (sync forceFullRefresh w e).2) in
  isSyncing status = false
  ∧ (hasError status = true
     ↔ full_fetch_issued forceFullRefresh w e
       ∧ ∃ message, full_fetch w = Rejected message)
  ∧ (hasError status = false → status_isStale status = false).
Proof.
  rewrite sync_after.
  destruct (sync_outcome_cases forceFullRefresh w e)
    as [(rs & -> & Hnot)|(m & -> & Hissued & Hrej)]; simpl.
  - split; [done|]. split; [|done]. split; [done|]. intros H. by apply Hnot in H.
  - split; [done|].
    assert (string_truthy (or_string m "Failed to sync data") = true) as ->
      by by destruct m.
    split; [|done]. split; [|done]. intros _. split; [done|]. by exists m.
Qed.

Lemma cacheStatus_after_sync_witness :
  let e := cache_1_2 empty_storage in
  (full_fetch_issued false world_down e
   ∧ ∃ message, full_fetch world_down = Rejected message)
  ∧ hasError (cacheStatus (store (sync false world_down e).2)) = true
  ∧ hasError (cacheStatus (store (sync false world_3_7_9 e).2)) = false.
Proof.
  intros e.
  assert (full_fetch_issued false world_down e
          ∧ ∃ message, full_fetch world_down = Rejected message) as Hfail.
  { split.
    - right. right. split; [reflexivity|]. by exists "timeout".
    - by exists "Network unreachable". }
  split; [exact Hfail|]. split.
  - by apply (proj1 (proj2 (cacheStatus_after_sync false world_down e))).
  - reflexivity.
Defined.

(** ** What the incremental merge keeps *)

Lemma filter_id_not_cached k (existing fetched : list InventoryRecord) :
  k ∈ id <$> existing →
  filter (λ r, id r = k) (filter (λ r, id r ∉ (id <$> existing)) fetched) = [].
Proof.
  intros Hk. induction fetched as [|r l IH]; [done|].
  rewrite filter_cons.
  destruct (decide (id r ∉ id <$> existing)) as [Hr|Hr]; [|done].
  rewrite filter_cons. destruct (decide (id r = k)) as [Heq|_]; [|exact IH].
  by rewrite Heq in Hr.
Qed.

Lemma merged_cached_identity k existing fetched :
  k ∈ id <$> existing →
  filter (λ r, id r = k) (Array_sort by_id (merge_new existing fetched))
  = filter (λ r, id r = k) existing.
Proof.
  intros Hk. rewrite Array_sort_by_id_stable. unfold merge_new.
  rewrite filter_app, filter_id_not_cached by done. apply app_nil_r.
Qed.

(** X7. An incremental sync never replaces what is cached. Every cached
    record is published again; for an identity that is cached, the published
    records of that identity are the cached ones, in their order, whatever
    version of it the remote sent; and a published record is a cached one or
    a fetched one whose identity was not cached. *)
Theorem sync_incremental_keeps_cached w e fetched :
  lastRecordId (meta (store e)) > 0 →
  incremental_fetch w e = Resolved fetched →
  let cached := records (store e) in
  let rs' := records (store (sync false w e).2) in
  (∀ r, r ∈ cached → r ∈ rs')
  ∧ (∀ k, k ∈ id <$> cached →
       filter (λ r, id r = k) rs' = filter (λ r, id r = k) cached)
  ∧ (∀ r, r ∈ rs' → r ∈ cached ∨ (r ∈ fetched ∧ id r ∉ id <$> cached)).
Proof.
  intros Hwm Hinc cached rs'.
  assert (rs' = Array_sort by_id (merge_new cached fetched)) as ->.
  { unfold rs'. by rewrite (sync_incremental w e fetched). }
  split; [|split].
  - intros r Hr. rewrite Array_sort_perm. unfold merge_new.
    apply elem_of_app. by left.
  - intros k Hk. by apply merged_cached_identity.
  - intros r. rewrite Array_sort_perm. unfold merge_new.
    rewrite elem_of_app, list_elem_of_filter. tauto.
Qed.

Lemma sync_incremental_keeps_cached_witness :
  let e := cache_1_2 empty_storage in
  lastRecordId (meta (store e)) > 0
  ∧ incremental_fetch world_newer_2_3 e
    = Resolved [item 2 "Eggs (12)"; item 3 "Ham"]
  ∧ filter (λ r, id r = 2) (records (store (sync false world_newer_2_3 e).2))
    = [item 2 "Eggs"].
Proof.
  intros e.
  assert (lastRecordId (meta (store e)) > 0) as Hwm by reflexivity.
  assert (incremental_fetch world_newer_2_3 e
          = Resolved [item 2 "Eggs (12)"; item 3 "Ham"]) as Hinc
    by reflexivity.
  split; [exact Hwm|]. split; [exact Hinc|].
  destruct (sync_incremental_keeps_cached world_newer_2_3 e _ Hwm Hinc)
    as (_ & Hkeep & _).
  rewrite (Hkeep 2); [reflexivity|]. right. left.
Defined.

(** ** forceRefresh *)

(** X8. [forceRefresh()] settles without an error for its caller and empties
    the partner map. If the full fetch answers, the published set is that
    answer sorted by identity, whatever was cached and whatever the
    watermark; on a writable storage the mirror holds it. If the full fetch
    is rejected, the records and metadata in memory stay as they were and
    the error is published, but the durable mirror has been erased: a load
    returns the empty default. *)
Theorem forceRefresh_replaces_or_erases_mirror w e :
  let e' := (forceRefresh w e).2 in
  (forceRefresh w e).1 = Resolved ()
  ∧ partnerMap e' = ∅
  ∧ (∀ l, full_fetch w = Resolved l →
       records (store e') = Array_sort by_id l
       ∧ error (store e') = ""
       ∧ (writable (localStorage e) →
          ∀ t', loaded_records (loadFromStorage t' (localStorage e'))
                = Array_sort by_id l))
  ∧ (∀ message, full_fetch w = Rejected message →
       records (store e') = records (store e)
       ∧ meta (store e') = meta (store e)
       ∧ error (store e') = or_string message "Failed to sync data"
       ∧ cache_item (localStorage e') = absent
       ∧ meta_item (localStorage e') = absent
       ∧ ∀ t', loadFromStorage t' (localStorage e') = default_loaded).
Proof.
  unfold forceRefresh, and_then, on_storage, write_partnerMap.
  cbv beta iota zeta. rewrite sync_unfold. unfold sync_outcome, replaced.
  simpl. split; [done|]. split.
  { by destruct (full_fetch w). }
  split.
  - intros l ->. simpl. split; [done|]. split; [done|].
    intros Hw t'.
    assert (writable (clearStorage (localStorage e))) as Hw' by exact Hw.
    by destruct (loadFromStorage_saved (Date_now w) t' (Array_sort by_id l)
                   (meta_of (Date_now w) (Array_sort by_id l))
                   (clearStorage (localStorage e)) Hw') as [-> _].
  - intros message ->. simpl. repeat split.
Qed.

Lemma forceRefresh_replaces_or_erases_mirror_witness :
  let e := createCacheStore 1500 (mirror_synced_at 1000) in
  full_fetch world_down = Rejected "Network unreachable"
  ∧ records (store (forceRefresh world_down e).2) = [item 1 "Milk"]
  ∧ loadFromStorage 2500 (localStorage e)
    = {| loaded_records := [item 1 "Milk"];
         loaded_meta := {| lastSyncTime := 1000; lastRecordId := 1;
                           recordCount := 1; isStale := false |} |}
  ∧ loadFromStorage 2500 (localStorage (forceRefresh world_down e).2)
    = default_loaded.
Proof.
  intros e.
  destruct (forceRefresh_replaces_or_erases_mirror world_down e)
    as (_ & _ & _ & Hfail).
  destruct (Hfail "Network unreachable" eq_refl)
    as (Hrs & _ & _ & _ & _ & Hload).
  split; [reflexivity|]. split; [by rewrite Hrs|].
  split; [reflexivity|]. apply Hload.
Defined.

(** ** The mutations and the reconciling sync *)

Lemma filter_complement_length i (l : list InventoryRecord) :
  (length (filter (λ r, id r ≠ i) l) + length (filter (λ r, id r = i) l)
   = length l)%nat.
Proof.
  induction l as [|r l IH]; [done|].
  rewrite !filter_cons.
  destruct (decide (id r ≠ i)), (decide (id r = i)); simpl; try lia; done.
Qed.

Lemma filter_other_ids i (l : list InventoryRecord) :
  i ∉ id <$> l → filter (λ r, id r ≠ i) l = l.
Proof.
  induction l as [|r l IH]; [done|]. rewrite fmap_cons, not_elem_of_cons.
  intros [Hr Hl]. rewrite filter_cons.
  destruct (decide (id r ≠ i)); [|done]. by rewrite IH.
Qed.

(** X9. A successful [deleteRecord(id)] changes the record list only: the
    metadata, [recordCount] and the watermark included, and the durable
    mirror stay as they were, so a mirror that held the record still holds
    it. The list loses exactly the records of that identity; deleting an
    identity that is not cached leaves it unchanged. *)
Theorem deleteRecord_leaves_metadata_and_mirror i w e b :
  OdooAPI.deleteRecord (odooClient w) "x_inventory" i = Resolved b →
  let e' := (deleteRecord i w e).2 in
  meta (store e') = meta (store e)
  ∧ localStorage e' = localStorage e
  ∧ (length (records (store e'))
     + length (filter (λ r, id r = i) (records (store e)))
     = length (records (store e)))%nat
  ∧ (i ∉ id <$> records (store e) → records (store e') = records (store e)).
Proof.
  intros Hok e'.
  assert (e' = publish (removed i (store e)) e) as ->.
  { unfold e', deleteRecord, try_catch, and_then, await, update, resolve.
    by rewrite Hok. }
  simpl. split; [done|]. split; [done|].
  split; [apply filter_complement_length|apply filter_other_ids].
Qed.

Lemma deleteRecord_leaves_metadata_and_mirror_witness :
  let e := createCacheStore 1500 (mirror_synced_at 1000) in
  let e' := (deleteRecord 1 world_delete_accepted e).2 in
  OdooAPI.deleteRecord (odooClient world_delete_accepted) "x_inventory" 1
  = Resolved true
  ∧ records (store e') = []
  ∧ recordCount (meta (store e')) = 1
  ∧ loaded_records (loadFromStorage 1600 (localStorage e')) = [item 1 "Milk"].
Proof.
  intros e e'.
  destruct (deleteRecord_leaves_metadata_and_mirror 1 world_delete_accepted e
              true eq_refl) as (Hmeta & Hls & _ & _).
  split; [reflexivity|]. split; [reflexivity|].
  fold e' in Hmeta, Hls. rewrite Hmeta, Hls. split; reflexivity.
Defined.










(** ** Derived stores *)

Lemma Sorted_drop {A : Type} (R : relation A) n (l : list A) :
  Sorted R l → Sorted R (drop n l).
Proof.
  revert l. induction n as [|n IH]; intros l Hl; [by rewrite drop_0|].
  destruct l as [|x l]; [done|]. simpl. apply IH.
  by apply Sorted_inv in Hl as [? _].
Qed.

(** X12. [recentInventories] lists the last ten records of the cache, the
    last one first: at most ten records, all of them cached; the whole cache
    reversed when it holds ten or fewer; entry [i] is the record [i] places
    before the end. Over a cache that ascends by identity it descends. *)
Theorem recentInventories_last_ten_reversed cache :
  let recent := recentInventories cache in
  let n := length (records cache) in
  length recent = (n `min` 10)%nat
  ∧ (∀ r, r ∈ recent → r ∈ records cache)
  ∧ ((n ≤ 10)%nat → recent = reverse (records cache))
  ∧ (∀ i : nat, (i < n `min` 10)%nat →
       recent !! i = records cache !! (n - S i)%nat)
  ∧ (Sorted id_le (records cache) → Sorted (flip id_le) recent).
Proof.
  intros recent n. unfold recent, recentInventories. fold n.
  split; [rewrite length_reverse, length_drop; lia|].
  split.
  { intros r. rewrite elem_of_reverse. apply subseteq_drop. }
  split.
  { intros Hn. by replace (n - 10)%nat with 0%nat by lia. }
  split.
  { intros i Hi. rewrite reverse_lookup by (rewrite length_drop; lia).
    rewrite lookup_drop, length_drop. f_equal. lia. }
  intros Hsorted. by apply Sorted_reverse, Sorted_drop.
Qed.

Lemma recentInventories_last_ten_reversed_witness :
  id <$> recentInventories cache_of_twelve
  = [12; 11; 10; 9; 8; 7; 6; 5; 4; 3]
  ∧ recentInventories cache_of_twelve !! 0%nat = Some (item 12 "Jar").
Proof.
  split; [reflexivity|].
  destruct (recentInventories_last_ten_reversed cache_of_twelve)
    as (_ & _ & _ & Hlookup & _).
  rewrite (Hlookup 0%nat); [reflexivity|]. vm_compute. lia.
Defined.

(** ** initialize and destroy *)

Lemma initialize_engine_unfold w e :
  initialize_engine w e
  = let loaded := loadFromStorage (Date_now w) (localStorage e) in
    if bool_decide (0 < length (loaded_records loaded))%nat then
      let e1 := publish (mirror_state loaded (store e)) e in
      if isStale (loaded_meta loaded) then sync false w e1
      else (Resolved (), e1)
    else
      let e1 := publish {| records := records (store e); loading := true;
                           syncing := syncing (store e);
                           error := error (store e);
                           meta := meta (store e) |} e in
      let e2 := (sync true w e1).2 in
      (Resolved (),
       publish {| records := records (store e2); loading := false;
                  syncing := syncing (store e2); error := error (store e2);
                  meta := meta (store e2) |} e2).
Proof.
  unfold initialize_engine. unfold and_then at 1. unfold now at 1.
  unfold and_then at 1. unfold read_localStorage at 1. cbv beta iota zeta.
  case_bool_decide as Hlen.
  - unfold and_then at 1. rewrite resolvePartnerNames_same.
    unfold and_then, update, resolve, publish, mirror_state. simpl.
    by destruct (isStale _).
  - unfold and_then at 1. unfold update at 1. cbv beta iota zeta.
    unfold and_then at 1. rewrite sync_unfold. by rewrite sync_after.
Qed.

Lemma initialize_engine_settles w e : (initialize_engine w e).1 = Resolved ().
Proof.
  rewrite initialize_engine_unfold. simpl. case_bool_decide; [|done].
  destruct (isStale _); [apply sync_settles|done].
Qed.

(** X13. [initialize()] over a mirror without records (absent, unreadable or
    holding an empty list) runs a forced sync between two publications of the
    [loading] flag. It settles without an error, the first state it
    publishes has [loading = true] and the last has [loading = false] and
    [syncing = false]. If the full fetch answers with [l], the last state
    holds [l] sorted by identity, [lastRecordId] its greatest identity and
    [recordCount] its length; if it is rejected, the last state keeps the
    records it found and carries the error. *)
Theorem initialize_without_mirror_records w s :
  loaded_records (loadFromStorage (Date_now w) (localStorage (engine s))) = [] →
  let out := initialize w s in
  let s_end := store (engine out.2) in
  out.1 = Resolved ()
  ∧ (∃ s1 s2 s3,
       notified (engine out.2) = notified (engine s) ++ [s1; s2; s3; s_end]
       ∧ loading s1 = true ∧ records s1 = records (store (engine s)))
  ∧ loading s_end = false
  ∧ syncing s_end = false
  ∧ (∀ l, full_fetch w = Resolved l →
       records s_end = Array_sort by_id l
       ∧ lastRecordId (meta s_end) = max_id_or_zero l
       ∧ recordCount (meta s_end) = Z.of_nat (length l)
       ∧ error s_end = "")
  ∧ (∀ message, full_fetch w = Rejected message →
       records s_end = records (store (engine s))
       ∧ error s_end = or_string message "Failed to sync data").
Proof.
  intros Hempty out s_end. unfold s_end, out, initialize. clear out s_end.
  pose proof (initialize_engine_unfold w (engine s)) as Hinit.
  cbv zeta in Hinit. rewrite Hempty in Hinit.
  rewrite bool_decide_eq_false_2 in Hinit by (simpl; lia).
  rewrite Hinit. clear Hinit. cbn [fst snd engine arm_sync_timer].
  rewrite sync_after. unfold sync_outcome, replaced. simpl orb. cbn iota.
  split; [done|]. split.
  { destruct (full_fetch w) as [l|m]; eexists _, _, _; simpl;
      rewrite <- !app_assoc; simpl; done. }
  split; [done|]. split.
  { by destruct (full_fetch w). }
  split.
  - intros l ->. simpl.
    rewrite (max_id_or_zero_perm _ _ (Array_sort_perm by_id l)).
    by rewrite (Permutation_length (Array_sort_perm by_id l)).
  - by intros m ->.
Qed.

Lemma initialize_without_mirror_records_witness :
  let s := store_over 1500 empty_storage in
  let s_end := store (engine (initialize world_milk s).2) in
  loaded_records (loadFromStorage (Date_now world_milk) (localStorage (engine s)))
  = []
  ∧ loading s_end = false
  ∧ records s_end = [item 1 "Milk"]
  ∧ lastRecordId (meta s_end) = 1
  ∧ recordCount (meta s_end) = 1.
Proof.
  intros s s_end. unfold s_end. clear s_end.
  assert (loaded_records
            (loadFromStorage (Date_now world_milk) (localStorage (engine s)))
          = []) as Hempty by reflexivity.
  destruct (initialize_without_mirror_records world_milk s Hempty)
    as (_ & _ & Hloading & _ & Hfull & _).
  destruct (Hfull [item 1 "Milk"] eq_refl) as (Hrs & Hmax & Hcount & _).
  split; [exact Hempty|]. split; [exact Hloading|].
  split; [rewrite Hrs; reflexivity|].
  split; [rewrite Hmax; reflexivity|rewrite Hcount; reflexivity].
Defined.



Lemma initialize_unfold w s :
  initialize w s
  = (Resolved (),
     arm_sync_timer {| engine := (initialize_engine w (engine s)).2;
                       syncInterval := syncInterval s;
                       intervals := intervals s |}).
Proof.
  unfold initialize. pose proof (initialize_engine_settles w (engine s)) as H.
  destruct (initialize_engine w (engine s)) as [[[]|m] e']; simpl in *; done.
Qed.

Lemma fresh_handle_unused timers : fresh_handle timers ∉ timers.*1.
Proof.
  intros Hin. apply max_list_elem_of_le in Hin. unfold fresh_handle in Hin. lia.
Qed.

Lemma clearInterval_last h p timers :
  h ∉ timers.*1 → clearInterval h (timers ++ [(h, p)]) = timers.
Proof.
  intros Hh. unfold clearInterval. rewrite filter_app.
  rewrite filter_cons. simpl. destruct (decide (h ≠ h)); [done|].
  rewrite filter_nil, app_nil_r.
  induction timers as [|[h' p'] l IH]; [done|].
  rewrite fmap_cons, not_elem_of_cons in Hh. destruct Hh as [Hne Hl].
  rewrite filter_cons. simpl. destruct (decide (h' ≠ h)) as [_|Hn].
  - by rewrite IH.
  - exfalso. apply Hn. intros Heq. apply Hne. simpl. by rewrite Heq.
Qed.

(** X15. The store owns at most one timer. [initialize()] on a store without
    a timer arms one, under a handle the host did not use, with the period of
    3 minutes, and leaves the other timers of the host alone. A second
    [initialize()] clears that timer before it arms its own, so the host
    holds one timer of the store, not two. [destroy()] then clears it, leaves
    the engine untouched, and a second [destroy()] changes nothing. *)
Theorem initialize_destroy_one_timer w1 w2 s :
  syncInterval s = None →
  let s1 := (initialize w1 s).2 in
  let s2 := (initialize w2 s1).2 in
  ∃ h1 h2,
    (h1 ∉ (intervals s).*1) ∧ (h2 ∉ (intervals s).*1)
    ∧ syncInterval s1 = Some h1
    ∧ intervals s1 = intervals s ++ [(h1, 3 * 60 * 1000)]
    ∧ syncInterval s2 = Some h2
    ∧ intervals s2 = intervals s ++ [(h2, 3 * 60 * 1000)]
    ∧ syncInterval (destroy s2) = None
    ∧ intervals (destroy s2) = intervals s
    ∧ engine (destroy s2) = engine s2
    ∧ destroy (destroy s2) = destroy s2.
Proof.
  intros Hnone s1 s2.
  exists (fresh_handle (intervals s)), (fresh_handle (intervals s)).
  pose proof (fresh_handle_unused (intervals s)) as Hfresh.
  assert (syncInterval s1 = Some (fresh_handle (intervals s))
          ∧ intervals s1
            = intervals s ++ [(fresh_handle (intervals s), SYNC_INTERVAL_MS)])
    as [Hs1 Hi1].
  { unfold s1. rewrite initialize_unfold. unfold arm_sync_timer. simpl.
    by rewrite Hnone. }
  assert (syncInterval s2 = Some (fresh_handle (intervals s))
          ∧ intervals s2
            = intervals s ++ [(fresh_handle (intervals s), SYNC_INTERVAL_MS)])
    as [Hs2 Hi2].
  { unfold s2. rewrite initialize_unfold. unfold arm_sync_timer. simpl.
    rewrite Hs1, Hi1. simpl. by rewrite clearInterval_last. }
  assert (destroy s2
          = {| engine := engine s2; syncInterval := None;
               intervals := intervals s |}) as Hd.
  { unfold destroy. rewrite Hs2, Hi2. simpl. by rewrite clearInterval_last. }
  split; [done|]. split; [done|]. split; [done|]. split; [done|].
  split; [done|]. split; [done|]. by rewrite Hd.
Qed.

Lemma initialize_destroy_one_timer_witness :
  let s := store_over 1500 empty_storage in
  let s2 := (initialize world_milk (initialize world_milk s).2).2 in
  syncInterval s = None
  ∧ intervals s2 = [(4%nat, 1000); (5%nat, 180000)]
  ∧ intervals (destroy s2) = [(4%nat, 1000)].
Proof.
  intros s s2.
  destruct (initialize_destroy_one_timer world_milk world_milk s eq_refl)
    as (h1 & h2 & _ & _ & _ & _ & _ & _ & _ & Hd & _).
  split; [reflexivity|]. split; [reflexivity|]. exact Hd.
Defined.

(** * The remote client and the proxy *)

(** X16. [callApi] turns a failure body into a rejection whose message is
    never empty: the error text of the body, or ["API Error"] when the body
    has none or an empty one. A body with [success] resolves unchanged, and
    an error thrown by the transport is passed on. None of the five methods
    resolves on a failure body. *)
Theorem callApi_failure_messages fetch a d :
  (∀ message,
     fetch {| action := a; data := d |} = Rejected message →
     odoo.callApi fetch a d = Rejected message)
  ∧ (∀ b,
       fetch {| action := a; data := d |} = Resolved b → success b = true →
       odoo.callApi fetch a d = Resolved b)
  ∧ (∀ b,
       fetch {| action := a; data := d |} = Resolved b → success b = false →
       ∃ message,
         odoo.callApi fetch a d = Rejected message
         ∧ message ≠ ""
         ∧ (∀ text, body_error b = Some text → text ≠ "" → message = text)
         ∧ (body_error b = None ∨ body_error b = Some "" →
            message = "API Error")
         ∧ ∀ field, odoo.then_field field (odoo.callApi fetch a d)
                    = Rejected message).
Proof.
  unfold odoo.callApi. split; [|split].
  - by intros message ->.
  - by intros b -> ->.
  - intros b -> ->. simpl. eexists. split; [done|].
    split.
    { by destruct (body_error b) as [[|c s]|]. }
    split.
    { intros text -> Hne. by destruct text. }
    split; [|done]. by intros [->| ->].
Qed.

Lemma callApi_failure_messages_witness :
  success (server.no_payload false None) = false
  ∧ odoo.deleteRecord silent_failure "x_inventory" 1 = Rejected "API Error".
Proof.
  split; [reflexivity|].
  destruct (proj2 (proj2 (callApi_failure_messages silent_failure "delete"
                            {| d_model := "x_inventory"; d_fields := None;
                               d_domain := None; d_id := Some 1;
                               d_values := None |}))
              _ eq_refl eq_refl) as (message & _ & _ & _ & Hdefault & Hfield).
  unfold odoo.deleteRecord. rewrite Hfield.
  f_equal. apply Hdefault. by left.
Defined.

Lemma respond_cases into r :
  (∃ p c, r = (Resolved p, c)
          ∧ server.respond into r = (server.json_success (into p), c))
  ∨ (∃ message c, r = (Rejected message, c)
                  ∧ server.respond into r
                    = (server.json_failure 500 message, c)).
Proof. destruct r as [[p|m] c]; [left|right]; eauto. Qed.

(** X17. [POST] always answers, and the status tells the outcome: 200 with
    [success] and no error text, or 400 or 500 with [success = false], an
    error text and no payload. A request with an action other than the five
    known ones is answered 400 "Invalid action" without a call to Odoo: the
    cached uid is as before and the answer does not depend on the server. *)
Theorem POST_status_matches_body env o request cachedUid :
  let resp := (server.POST env o request cachedUid).1 in
  ((server.status resp = 200 ∧ success (server.body resp) = true
    ∧ body_error (server.body resp) = None)
   ∨ ((server.status resp = 400 ∨ server.status resp = 500)
      ∧ ∃ message, server.body resp = server.no_payload false (Some message)))
  ∧ (∀ req, request = Resolved req → action req ∉ known_actions →
       ∀ o', server.POST env o' request cachedUid
             = (server.json_failure 400 "Invalid action", cachedUid)).
Proof.
  intros resp. unfold resp. clear resp. split.
  - unfold server.POST. destruct request as [req|m].
    + repeat match goal with
             | |- context [if ?b then _ else _] => destruct b
             end;
        try (match goal with
             | |- context [server.respond ?f ?r] =>
                 destruct (respond_cases f r)
                   as [(p & c & _ & ->)|(m & c & _ & ->)]
             end; simpl; [left; done|right; split; [by right|by exists m]]).
      right. split; [by left|]. by eexists.
    + right. split; [by right|]. by exists m.
  - intros req -> Hunknown o'. unfold server.POST.
    unfold known_actions in Hunknown.
    rewrite !not_elem_of_cons in Hunknown.
    destruct Hunknown as (H1 & H2 & H3 & H4 & H5 & _).
    apply String.eqb_neq in H1, H2, H3, H4, H5.
    by rewrite H1, H2, H3, H4, H5.
Qed.

Lemma POST_status_matches_body_witness :
  (action {| action := "increment"; data := no_data "x_inventory" |}
     ∉ known_actions)
  ∧ server.POST test_env odoo_refusing
      (Resolved {| action := "increment"; data := no_data "x_inventory" |})
      undefined
    = (server.json_failure 400 "Invalid action", undefined).
Proof.
  assert (action {| action := "increment"; data := no_data "x_inventory" |}
            ∉ known_actions) as Hunknown.
  { unfold known_actions. rewrite !not_elem_of_cons. simpl.
    repeat split; try discriminate. apply not_elem_of_nil. }
  split; [exact Hunknown|].
  exact (proj2 (POST_status_matches_body test_env odoo_refusing _ undefined)
           _ eq_refl Hunknown odoo_refusing).
Defined.

Lemma POST_known env o req c :
  action req ∈ known_actions →
  ∃ method args into,
    server.POST env o (Resolved req) c
    = server.respond into (server.execute env o (d_model (data req)) method args c).
Proof.
  unfold known_actions. rewrite !elem_of_cons, elem_of_nil.
  unfold server.POST.
  intros [->|[->|[->|[->|[->|[]]]]]]; simpl; eauto.
Qed.

(** X18. The proxy logs in at most once. With a uid in the cache a request
    never calls the login: its answer is the same whatever the login would
    return, and the cache keeps the uid. With no uid in the cache, a request
    answered 200 leaves in the cache the truthy uid its login returned; a
    login that is rejected or returns a falsy uid gives a 500 answer, with
    the text "Authentication failed" in the second case, and leaves the cache
    empty, so that the next request logs in again. *)
Theorem proxy_logs_in_once env o req cachedUid :
  action req ∈ known_actions →
  let out := server.POST env o (Resolved req) cachedUid in
  let login := server.callOdoo (common_login o (ODOO_DB env) (ODOO_USERNAME env)
                                  (ODOO_API_KEY env)) in
  (payload_truthy cachedUid = true →
     out.2 = cachedUid
     ∧ ∀ o', object_execute_kw o' = object_execute_kw o →
             server.POST env o' (Resolved req) cachedUid = out)
  ∧ (payload_truthy cachedUid = false →
       (server.status out.1 = 200 →
        payload_truthy out.2 = true ∧ login = Resolved out.2)
       ∧ (∀ message, login = Rejected message →
            out = (server.json_failure 500 message, cachedUid))
       ∧ (∀ uid, login = Resolved uid → payload_truthy uid = false →
            out = (server.json_failure 500 "Authentication failed", cachedUid))).
Proof.
  intros Hknown out login.
  destruct (POST_known env o req cachedUid Hknown)
    as (method & args & into & Hpost).
  split.
  - intros Hcached. split.
    + unfold out. rewrite Hpost. unfold server.execute, server.authenticate.
      rewrite Hcached.
      destruct (server.callOdoo (object_execute_kw _ _ _ _ _ _ _));
        reflexivity.
    + intros o' Hsame. unfold out.
      unfold server.POST, server.execute, server.authenticate.
      by rewrite Hcached, Hsame.
  - intros Hempty. unfold out. rewrite Hpost.
    unfold server.execute, server.authenticate. rewrite Hempty. fold login.
    destruct login as [uid|m].
    + destruct (payload_truthy uid) eqn:Huid; simpl.
      * destruct (server.callOdoo (object_execute_kw _ _ _ _ _ _ _))
          as [p|m]; simpl.
        -- split; [done|]. split; [intros message [=]|].
           intros uid' [= <-]. congruence.
        -- split; [intros [=]|]. split; [intros message [=]|].
           intros uid' [= <-]. congruence.
      * split; [|split].
        -- simpl. intros [=].
        -- intros message [=].
        -- by intros uid' _ _.
    + simpl. split; [|split].
      * intros [=].
      * by intros message [= ->].
      * intros uid [=].
Qed.

Lemma proxy_logs_in_once_witness :
  let req := {| action := "search"; data := no_data "x_inventory" |} in
  action req ∈ known_actions
  ∧ payload_truthy undefined = false
  ∧ server.POST test_env odoo_login_refused (Resolved req) undefined
    = (server.json_failure 500 "Authentication failed", undefined).
Proof.
  intros req.
  assert (action req ∈ known_actions) as Hknown by (right; left).
  split; [exact Hknown|]. split; [reflexivity|].
  destruct (proj2 (proxy_logs_in_once test_env odoo_login_refused req undefined
                     Hknown) eq_refl) as (_ & _ & Hfalsy).
  exact (Hfalsy (boolean false) eq_refl eq_refl).
Defined.

Lemma through_proxy_call env o c a d method args into field :
  server.POST env o (Resolved {| action := a; data := d |}) c
  = server.respond into (server.execute env o (d_model d) method args c) →
  (∀ p, field (into p) = p) →
  (∀ p, success (into p) = true) →
  odoo.then_field field (odoo.callApi (through_proxy env o c) a d)
  = executed env o c (d_model d) method args.
Proof.
  intros Hpost Hfield Hsuccess.
  unfold odoo.callApi, through_proxy, executed. rewrite Hpost.
  unfold server.execute.
  destruct (server.authenticate env o c) as [[uid|m] c']; simpl.
  - destruct (server.callOdoo _) as [p|m]; simpl.
    + rewrite Hsuccess. simpl. by rewrite Hfield.
    + done.
  - done.
Qed.

Lemma or_string_left_text a b : a ≠ "" → or_string a b = a.
Proof. by destruct a. Qed.

Lemma or_string_right_text a b : b ≠ "" → or_string a b ≠ "".
Proof. by destruct a. Qed.

Lemma executed_message_not_empty env o c model method args message :
  executed env o c model method args = Rejected message → message ≠ "".
Proof.
  unfold executed.
  destruct (server.authenticate env o c).1 as [uid|m].
  - destruct (server.callOdoo _) as [p|m]; simpl; [done|].
    intros [= <-]. by destruct m.
  - intros [= <-]. by destruct m.
Qed.

(** X19. A call of the client that goes through the proxy asks Odoo for
    exactly what the caller asked: [createRecord] runs [create] with the
    field values, [searchRecords] and [searchModel] run [search_read] with the
    domain and the field names unchanged, [updateRecord] runs [write] and
    [deleteRecord] runs [unlink] on the given identity, each on the given
    model under the authenticated uid. The call resolves with the result
    Odoo returned and rejects with the message of the error raised behind
    the proxy, ["API Error"] standing in for an empty one, so that a
    rejection always carries a message. *)
Theorem client_calls_reach_odoo env o c model :
  let via := through_proxy env o c in
  (∀ fields,
     odoo.createRecord via model fields
     = executed env o c model "create"
         (create_args (Some (field_values fields))))
  ∧ (∀ domain fields,
       odoo.searchRecords via model domain fields
       = executed env o c model "search_read"
           (search_read_args domain (field_names fields))
       ∧ odoo.searchModel via model domain fields
         = executed env o c model "search_read"
             (search_read_args domain (field_names fields)))
  ∧ (∀ i values,
       odoo.updateRecord via model i values
       = executed env o c model "write" (write_args (Some i) (Some values)))
  ∧ (∀ i,
       odoo.deleteRecord via model i
       = executed env o c model "unlink" (unlink_args (Some i)))
  ∧ (∀ method args message,
       executed env o c model method args = Rejected message → message ≠ "").
Proof.
  intros via. unfold via. clear via.
  split; [|split; [|split; [|split]]];
    [| | | |intros method args message; apply executed_message_not_empty].
  - intros fields. unfold odoo.createRecord.
    by erewrite through_proxy_call.
  - intros domain fields. split.
    + unfold odoo.searchRecords. by erewrite through_proxy_call.
    + unfold odoo.searchModel. by erewrite through_proxy_call.
  - intros i values. unfold odoo.updateRecord.
    by erewrite through_proxy_call.
  - intros i. unfold odoo.deleteRecord. by erewrite through_proxy_call.
Qed.

Lemma client_calls_reach_odoo_witness :
  let via := through_proxy test_env odoo_refusing (number 7) in
  odoo.createRecord via "x_inventory" {[ "x_name" := VStr "Ham" ]}
  = Rejected "Access denied"
  ∧ odoo.searchRecords via "x_inventory" (newer_than 2) fetch_fields
    = Rejected "Access denied"
  ∧ "Access denied" ≠ "".
Proof.
  intros via. unfold via. clear via.
  destruct (client_calls_reach_odoo test_env odoo_refusing (number 7)
              "x_inventory") as (Hcreate & Hsearch & _ & _ & Hmessage).
  assert (odoo.createRecord (through_proxy test_env odoo_refusing (number 7))
            "x_inventory" {[ "x_name" := VStr "Ham" ]}
          = Rejected "Access denied") as Hrejected.
  { rewrite Hcreate. reflexivity. }
  split; [exact Hrejected|]. split.
  - rewrite (proj1 (Hsearch _ _)). reflexivity.
  - rewrite Hcreate in Hrejected. exact (Hmessage _ _ _ Hrejected).
Defined.

(** X20. When Odoo answers a call with an error object, the caller of the
    client sees a rejection whose message is [error.data.message], or else
    [error.message], or else ["Odoo API Error"]: the first of them that is
    present and not empty. It is never empty. *)
Theorem odoo_error_message_reaches_caller env o uid model i answer err :
  payload_truthy uid = true →
  object_execute_kw o (ODOO_DB env) uid (ODOO_API_KEY env) model "unlink"
    (unlink_args (Some i)) = Resolved answer →
  rpc_error answer = Some err →
  ∃ message,
    odoo.deleteRecord (through_proxy env o uid) model i = Rejected message
    ∧ message ≠ ""
    ∧ (∀ text, data_message err = Some text → text ≠ "" → message = text)
    ∧ (data_message err = None ∨ data_message err = Some "" →
       ∀ text, rpc_message err = Some text → text ≠ "" → message = text)
    ∧ (data_message err = None ∨ data_message err = Some "" →
       rpc_message err = None ∨ rpc_message err = Some "" →
       message = "Odoo API Error").
Proof.
  intros Huid Hanswer Herr.
  assert (odoo.deleteRecord (through_proxy env o uid) model i
          = executed env o uid model "unlink" (unlink_args (Some i))) as ->.
  { unfold odoo.deleteRecord. by erewrite through_proxy_call. }
  unfold executed, server.authenticate. rewrite Huid.
  simpl. rewrite Hanswer. simpl. rewrite Herr. simpl.
  set (m1 := default "" (data_message err)).
  set (m2 := default "" (rpc_message err)).
  assert (or_string (or_string m1 m2) "Odoo API Error" ≠ "") as Hinner
    by by apply or_string_right_text.
  eexists. split; [reflexivity|].
  rewrite (or_string_left_text _ "API Error" Hinner).
  split; [exact Hinner|]. split; [|split].
  - intros text Ht Hne. unfold m1. rewrite Ht. simpl.
    rewrite (or_string_left_text text m2 Hne). by apply or_string_left_text.
  - intros Hd text Ht Hne.
    assert (m1 = "") as -> by (unfold m1; by destruct Hd as [->| ->]).
    unfold m2. rewrite Ht. simpl. by apply or_string_left_text.
  - intros Hd Hm.
    assert (m1 = "") as -> by (unfold m1; by destruct Hd as [->| ->]).
    by assert (m2 = "") as -> by (unfold m2; by destruct Hm as [->| ->]).
Qed.

Lemma odoo_error_message_reaches_caller_witness :
  payload_truthy (number 7) = true
  ∧ odoo.deleteRecord (through_proxy test_env odoo_refusing (number 7))
      "x_inventory" 2
    = Rejected "Access denied".
Proof.
  split; [reflexivity|].
  destruct (odoo_error_message_reaches_caller test_env odoo_refusing (number 7)
              "x_inventory" 2 _ _ eq_refl eq_refl eq_refl)
    as (message & -> & _ & Htext & _).
  f_equal. by apply Htext.
Defined.

(** * The utilities *)

Lemma prefix_app (p s : string) : String.prefix p (p +:+ s) = true.
Proof.
  induction p as [|a p IH]; simpl; [by destruct s|].
  destruct (Ascii.ascii_dec a a) as [_|Hne]; [exact IH|by destruct Hne].
Qed.

Lemma prefix_split (p s : string) :
  String.prefix p s = true → ∃ rest, s = p +:+ rest.
Proof.
  revert s. induction p as [|a p IH]; intros s.
  - intros _. by exists s.
  - destruct s as [|b s]; simpl; [done|].
    destruct (Ascii.ascii_dec a b) as [->|]; [|done].
    intros H. destruct (IH s H) as [rest ->]. by exists rest.
Qed.

(** X21. [isTempId] holds of exactly the strings that start with ["temp_"]:
    of every identity [generateTempId] makes, at any time and for any random
    part, and of no number, so an identity the remote assigned is never
    taken for a temporary one. *)
Theorem isTempId_recognises_generated :
  (∀ t random, isTempId (id_string (generateTempId t random)) = true)
  ∧ (∀ n, isTempId (id_number n) = false)
  ∧ (∀ s, isTempId (id_string s) = true ↔ ∃ rest, s = "temp_" +:+ rest).
Proof.
  split; [|split].
  - intros t random. unfold generateTempId. apply prefix_app.
  - done.
  - intros s. split; [apply prefix_split|].
    intros [rest ->]. apply prefix_app.
Qed.

Lemma isTempId_recognises_generated_witness :
  isTempId (id_string "temp_1700000000000_k3j9x0q1z") = true
  ∧ isTempId (id_string (generateTempId 1700000000000 "k3j9x0q1z")) = true
  ∧ generateTempId 1700000000000 "k3j9x0q1z" = "temp_1700000000000_k3j9x0q1z".
Proof.
  destruct isTempId_recognises_generated as (Hgen & _ & Hiff).
  split; [|split].
  - apply Hiff. by exists "1700000000000_k3j9x0q1z".
  - apply Hgen.
  - vm_compute. reflexivity.
Defined.

(** X22. [formatRelativeTime] names the largest unit that fits. Less than a
    minute ago, or in the future, is "Just now"; from one minute on the
    text counts whole minutes, from one hour on whole hours, from one day on
    whole days, each the elapsed milliseconds divided by the length of the
    unit and rounded down. *)
Theorem formatRelativeTime_largest_unit t timestamp :
  let d := t - timestamp in
  (d < 60000 → formatRelativeTime t timestamp = "Just now")
  ∧ (60000 ≤ d < 3600000 →
     formatRelativeTime t timestamp = ago (d / 60000) "minute")
  ∧ (3600000 ≤ d < 86400000 →
     formatRelativeTime t timestamp = ago (d / 3600000) "hour")
  ∧ (86400000 ≤ d →
     formatRelativeTime t timestamp = ago (d / 86400000) "day").
Proof.
  intros d. unfold formatRelativeTime. fold d.
  assert (d / 1000 / 60 = d / 60000) as Hm
    by (rewrite Zdiv_Zdiv by lia; done).
  assert (d / 1000 / 60 / 60 = d / 3600000) as Hh
    by (rewrite Hm, Zdiv_Zdiv by lia; done).
  assert (d / 1000 / 60 / 60 / 24 = d / 86400000) as Hd
    by (rewrite Hh, Zdiv_Zdiv by lia; done).
  rewrite Hd, Hh, Hm.
  pose proof (Z.div_mod d 60000 ltac:(lia)) as E1.
  pose proof (Z.mod_pos_bound d 60000 ltac:(lia)) as B1.
  pose proof (Z.div_mod d 3600000 ltac:(lia)) as E2.
  pose proof (Z.mod_pos_bound d 3600000 ltac:(lia)) as B2.
  pose proof (Z.div_mod d 86400000 ltac:(lia)) as E3.
  pose proof (Z.mod_pos_bound d 86400000 ltac:(lia)) as B3.
  repeat split; intros Hrange;
    repeat (case_bool_decide; try lia); done.
Qed.

Lemma formatRelativeTime_largest_unit_witness :
  formatRelativeTime 1700000000000 (1700000000000 - 60000) = "1 minute ago"
  ∧ formatRelativeTime 1700000000000 (1700000000000 - 7199999)
    = "1 hour ago"
  ∧ formatRelativeTime 1700000000000 (1700000000000 - 3 * 86400000)
    = "3 days ago"
  ∧ formatRelativeTime 1700000000000 (1700000000000 + 5000) = "Just now".
Proof.
  split; [|split; [|split]].
  - rewrite (proj1 (proj2 (formatRelativeTime_largest_unit 1700000000000
                             (1700000000000 - 60000)))) by lia.
    vm_compute. reflexivity.
  - rewrite (proj1 (proj2 (proj2 (formatRelativeTime_largest_unit 1700000000000
                                    (1700000000000 - 7199999))))) by lia.
    vm_compute. reflexivity.
  - rewrite (proj2 (proj2 (proj2 (formatRelativeTime_largest_unit 1700000000000
                                    (1700000000000 - 3 * 86400000))))) by lia.
    vm_compute. reflexivity.
  - apply (proj1 (formatRelativeTime_largest_unit 1700000000000
                    (1700000000000 + 5000))). lia.
Defined.

Lemma prefix_self (s : string) : String.prefix s s = true.
Proof.
  induction s as [|a s IH]; simpl; [done|].
  destruct (Ascii.ascii_dec a a) as [_|Hne]; [exact IH|by destruct Hne].
Qed.

Lemma includes_self (s : string) : includes s s = true.
Proof.
  assert (includes s s
          = String.prefix s s
            || match s with
               | EmptyString => false
               | String _ s' => includes s' s
               end) as -> by by destruct s.
  by rewrite prefix_self.
Qed.

Lemma filter_twice {A : Type} (P : A → Prop) `{!∀ x, Decision (P x)}
    (l : list A) :
  filter P (filter P l) = filter P l.
Proof.
  induction l as [|x l IH]; [done|]. rewrite filter_cons.
  destruct (decide (P x)) as [Hx|Hx]; [|exact IH].
  rewrite filter_cons. destruct (decide (P x)); [|done]. by rewrite IH.
Qed.

(** X23. [filterRecords] only ever selects: whatever [toLowerCase] and
    [trim] compute, the result lists records of the input in their order,
    and filtering the result again by the same term and fields changes
    nothing. An empty or blank term returns the input as it is; a term that
    is not blank with no search fields returns nothing. A record one of whose
    searched fields holds the term itself is always in the result. *)
Theorem filterRecords_selects toLowerCase trim rs term fields :
  let found := filterRecords toLowerCase trim rs term fields in
  found `sublist_of` rs
  ∧ filterRecords toLowerCase trim found term fields = found
  ∧ (term = "" ∨ trim term = "" → found = rs)
  ∧ (term ≠ "" → trim term ≠ "" → fields = [] → found = [])
  ∧ (∀ r field,
       r ∈ rs → field ∈ fields → property r field = Some (VStr term) →
       r ∈ found).
Proof.
  intros found. unfold found, filterRecords. clear found.
  destruct (negb (string_truthy term) || String.eqb (trim term) "") eqn:Hblank.
  - split; [done|]. split; [done|]. split; [done|].
    split; [|done]. intros Ht Htrim _.
    apply orb_true_iff in Hblank as [H|H].
    + by destruct term.
    + by apply String.eqb_eq in H.
  - split; [apply sublist_filter|].
    split; [apply filter_twice|]. split.
    { apply orb_false_iff in Hblank as [H1 H2]. intros [->| Htrim].
      - done.
      - by rewrite Htrim in H2. }
    split.
    { intros _ _ ->. simpl. induction rs as [|r rs IH]; [done|].
      rewrite filter_cons. by destruct (decide _). }
    intros r field Hr Hfield Hprop. apply list_elem_of_filter. split; [|done].
    apply existsb_exists. exists field. split; [by apply list_elem_of_In|].
    rewrite Hprop. simpl. apply includes_self.
Qed.

Lemma filterRecords_selects_witness :
  let rs := [item 1 "Milk"; item 2 "Eggs"; item 3 "Oat milk"] in
  item 3 "milk" ∈ [item 3 "milk"]
  ∧ filterRecords ascii_toLowerCase drop_spaces rs "milk" ["x_name"]
    = [item 1 "Milk"; item 3 "Oat milk"]
  ∧ filterRecords ascii_toLowerCase drop_spaces rs "   " ["x_name"] = rs
  ∧ item 3 "milk"
    ∈ filterRecords ascii_toLowerCase drop_spaces [item 3 "milk"] "milk"
        ["x_name"].
Proof.
  intros rs.
  assert (item 3 "milk" ∈ [item 3 "milk"]) as Hin by left.
  split; [exact Hin|]. split; [reflexivity|]. split.
  - apply (proj1 (proj2 (proj2 (filterRecords_selects ascii_toLowerCase
                                  drop_spaces rs "   " ["x_name"])))).
    by right.
  - apply (proj2 (proj2 (proj2 (proj2 (filterRecords_selects ascii_toLowerCase
                                         drop_spaces [item 3 "milk"] "milk"
                                         ["x_name"])))) _ "x_name" Hin).
    + left.
    + reflexivity.
Defined.
